(** * cranberry: the shade generator, the palette model and the CSS export

    A shallow embedding of the application module, in the richest of its
    three variants: the one with editable shading function and mix ratios.

    Conventions of the embedding.
    - A JavaScript [number] that holds a ratio, a gradient parameter or a
      colour coordinate is a real number ([R]); IEEE-754 rounding is not
      modelled.  The two places where a JavaScript number stops being a
      real number are explicit: [NaN] coming out of [Number(text)], and the
      quotient by zero (Infinity or NaN in JavaScript), which the model
      reports as the outcome [NotFinite].
    - A [number] that holds an index or a length is an integer ([Z]).
    - A call either returns or throws: fallible code is written in the
      [result] monad below.
    - Arrays live in a store, so that copying and assigning to an element
      are visible; the objects of a palette only have scalar fields and are
      never assigned to in place, so an array cell holds them by value. *)

From Stdlib Require Import Reals Lra Lia ZArith Ascii String.
From stdpp Require Import base option list strings gmap fin_maps pretty.

Local Open Scope R_scope.

(** ** Outcomes *)

Inductive error : Type :=
| RangeError          (* [Array(n)] with an invalid length *)
| NotFinite           (* a quotient by zero: Infinity or NaN *)
| IndexOutOfRange     (* the error kind the specification names *)
| InvalidColorFormat. (* the error kind the specification names *)

Inductive result (A : Type) : Type :=
| Ok (a : A)
| Err (e : error).
Arguments Ok {A} a.
Arguments Err {A} e.

#[export] Instance result_ret : MRet result := fun A a => Ok a.
#[export] Instance result_bind : MBind result := fun A B f m =>
  match m with
  | Ok a => f a
  | Err e => Err e
  end.
#[export] Instance result_fmap : FMap result := fun A B f m =>
  match m with
  | Ok a => Ok (f a)
  | Err e => Err e
  end.

(** ** The easing table [SHADING] *)

Inductive ShadingFunction : Type := linear | easeIn | easeOut | easeInOut.

Definition SHADING (f : ShadingFunction) (x : R) : R :=
  match f with
  | linear => x
  | easeIn => 1 - cos ((x * PI) / 2)
  | easeOut => sin ((x * PI) / 2)
  | easeInOut => (1 - cos (x * PI)) / 2
  end.

(** ** Colours

    [chroma-js] is a dependency of the application and not part of it.  A
    [chroma.Color] is represented by its three CIE LAB coordinates; the
    clipping of a colour to the sRGB gamut is not modelled. *)

Record Lab : Type := mkLab { lab_l : R; lab_a : R; lab_b : R }.

Definition lerp (x y f : R) : R := x + f * (y - x).

(** Modelled from the spec: [chroma(a).mix(b, ratio, "lab")] of chroma-js,
    "linear interpolation of the two colors' coordinates in LAB space;
    ratio=0 yields a, ratio=1 yields b".  The ratio is used as it comes:
    outside [0, 1] this is the point of the LAB line beyond [a] or [b].
    chroma-js gives that point as long as it is a colour of the sRGB gamut,
    and a colour clipped to the gamut otherwise; the properties that depend
    on where such a point lies are stated for ratios of [0, 1], or on a
    point inside the gamut. *)
Definition mix (a b : Lab) (ratio : R) : Lab :=
  mkLab (lerp (lab_l a) (lab_l b) ratio)
        (lerp (lab_a a) (lab_a b) ratio)
        (lerp (lab_b a) (lab_b b) ratio).

(** Modelled from the spec: [chroma.scale([a, b]).mode("lab")] of
    chroma-js applied to [t], the two-stop LAB gradient "equivalent to mix
    with ratio=t". *)
Definition scale (a b : Lab) (t : R) : Lab := mix a b t.

(** ** Numbers and arrays of indices *)

(** [a / b] on two integer-valued numbers. *)
Definition js_div (a b : Z) : result R :=
  if decide (b = 0%Z) then Err NotFinite else Ok (IZR a / IZR b).

(** [[...Array(n).keys()]]: the indices [0 .. n-1]; [Array(n)] throws a
    RangeError unless [n] is an integer in [0, 2^32 - 1]. *)
Definition Array_keys (n : Z) : result (list Z) :=
  if decide (0 <= n < 2 ^ 32)%Z then Ok (seqZ 0 n) else Err RangeError.

(** ** The seed colour *)

Record Color : Type := mkColor {
  name : string;
  hex : string;
  targetIndex : Z;
  shadingFunction : ShadingFunction;
  whiteMixRatio : R;
  blackMixRatio : R
}.

Section Generator.

(** [chroma(hex)]: the colour a hex string denotes.  The strings of a
    palette come from the defaults and from a colour input, for which
    chroma-js does not throw. *)
Variable chroma : string -> Lab.

Definition getShades (color : Color) : result (list Lab) :=
  let lightestShade :=
    mix (chroma (hex color)) (chroma "#fff") (whiteMixRatio color) in
  let scale1 := scale lightestShade (chroma (hex color)) in
  let length := (targetIndex color + 1)%Z in
  indices ← Array_keys length;
  colors ← mapM (fun i =>
                   value ← SHADING (shadingFunction color) <$> js_div i length;
                   mret (scale1 value)) indices;
  let darkestShade :=
    mix (chroma (hex color)) (chroma "#000") (blackMixRatio color) in
  let extendedScale := scale (chroma (hex color)) darkestShade in
  let extensionLength := (10 - length)%Z in
  extendedIndices ← (fmap (fun i => (i + 1)%Z)) <$> Array_keys extensionLength;
  extendedColors ← mapM (fun i =>
                           value ← SHADING linear <$> js_div i extensionLength;
                           mret (extendedScale value)) extendedIndices;
  mret (colors ++ extendedColors).

(** The names the specification gives to the parts of a ramp. *)
Definition seedLab (c : Color) : Lab := chroma (hex c).
Definition WHITE : Lab := chroma "#fff".
Definition BLACK : Lab := chroma "#000".
Definition light (c : Color) : Lab := mix (seedLab c) WHITE (whiteMixRatio c).
Definition dark (c : Color) : Lab := mix (seedLab c) BLACK (blackMixRatio c).
Definition headLength (c : Color) : Z := (targetIndex c + 1)%Z.
Definition tailLength (c : Color) : Z := (9 - targetIndex c)%Z.

(** Head entry [i] and tail entry [j] of the ramp, as the specification
    words them. *)
Definition headSample (c : Color) (i : Z) : Lab :=
  scale (light c) (seedLab c)
        (SHADING (shadingFunction c) (IZR i / IZR (headLength c))).
Definition tailSample (c : Color) (j : Z) : Lab :=
  scale (seedLab c) (dark c) (IZR j / IZR (tailLength c)).

Definition headSamples (c : Color) : list Lab :=
  headSample c <$> seqZ 0 (headLength c).
Definition tailSamples (c : Color) : list Lab :=
  tailSample c <$> seqZ 1 (tailLength c).

End Generator.

(** ** The CSS export *)

Definition nl : string := String "010"%char EmptyString.

(** [Array.prototype.join]. *)
Fixpoint Array_join (sep : string) (l : list string) : string :=
  match l with
  | [] => ""
  | [x] => x
  | x :: l' => x +:+ sep +:+ Array_join sep l'
  end.

Section CssExport.

Variable chroma : string -> Lab.
(** [shade.css("hsl")] of chroma-js. *)
Variable css : Lab -> string.

(** The template literal of one declaration line. *)
Definition declaration (color : Color) (i : nat) (shade : Lab) : string :=
  "  --" +:+ name color +:+ "-" +:+ pretty i +:+ ": " +:+ css shade +:+ ";".

(** The declaration lines of one entry, on the ramp as head and tail. *)
Definition entry_lines (color : Color) : list string :=
  imap (declaration color) (headSamples chroma color ++ tailSamples chroma color).

(** The text [outer] that [CssVariablesOutput] renders. *)
Definition CssVariablesOutput (colors : list Color) : result string :=
  lines ← (fun ls => concat ls) <$> mapM (fun color =>
                             shades ← getShades chroma color;
                             mret (imap (declaration color) shades)) colors;
  let inner := Array_join nl lines in
  let outer := ":root {" +:+ nl +:+ inner +:+ nl +:+ "}" in
  mret outer.

End CssExport.

(** ** The palette model *)

(** [keyof Color]. *)
Inductive ColorKey : Type :=
| Kname | Khex | KtargetIndex | KshadingFunction | KwhiteMixRatio | KblackMixRatio.

Definition key (k : ColorKey) : string :=
  match k with
  | Kname => "name"
  | Khex => "hex"
  | KtargetIndex => "targetIndex"
  | KshadingFunction => "shadingFunction"
  | KwhiteMixRatio => "whiteMixRatio"
  | KblackMixRatio => "blackMixRatio"
  end.

(** [Color[keyof Color]]: a string (a shading function is named by a
    string) or a number. *)
Inductive value : Type :=
| VStr (s : string)
| VNum (r : R).

(** An element of an array of objects: an empty slot, [null], or an object
    given by its own properties. *)
Inductive elem : Type :=
| Hole
| Null
| Object (o : gmap string value).

Definition is_Object (e : elem) : Prop := ∃ o, e = Object o.

(** An array: its elements, and the properties assigned under a key that
    is not an array index (a negative integer, or one from [2^32 - 1]). *)
Record jsarray : Type := mkArray {
  elems : list elem;
  props : gmap Z (gmap string value)
}.

#[export] Instance jsarray_inhabited : Inhabited jsarray := populate (mkArray [] ∅).

Definition is_array_index (i : Z) : Prop := (0 <= i < 2 ^ 32 - 1)%Z.

#[export] Instance is_array_index_dec i : Decision (is_array_index i).
Proof. unfold is_array_index. apply _. Defined.

(** [JSON.parse(JSON.stringify(a))] on an array of objects with string and
    finite number fields: a new array; empty slots come back as [null]; the
    properties that are not elements are dropped.  (A field that holds
    [Infinity] or [NaN] would come back as [null]; see [edit_finite].) *)
Definition JSON_elem (e : elem) : elem :=
  match e with
  | Object o => Object o
  | Hole | Null => Null
  end.

Definition JSON_clone (a : jsarray) : jsarray :=
  mkArray (JSON_elem <$> elems a) ∅.

(** [a[index]] when it is an object; [None] stands for [undefined] and
    [null]. *)
Definition array_get (a : jsarray) (index : Z) : option (gmap string value) :=
  if decide (is_array_index index) then
    match elems a !! Z.to_nat index with
    | Some (Object o) => Some o
    | _ => None
    end
  else props a !! index.

(** [{...x}]: spreading [undefined] or [null] gives the empty object. *)
Definition spread (x : option (gmap string value)) : gmap string value :=
  default ∅ x.

(** [a[index] = o]: inside the array the element is replaced; past its end
    the array grows, leaving empty slots; under a key that is not an array
    index a property is set and the elements stay. *)
Definition array_set (a : jsarray) (index : Z) (o : gmap string value) : jsarray :=
  if decide (is_array_index index) then
    let i := Z.to_nat index in
    if decide (i < length (elems a))%nat
    then mkArray (<[i := Object o]> (elems a)) (props a)
    else mkArray (elems a ++ replicate (i - length (elems a)) Hole ++ [Object o])
                 (props a)
  else mkArray (elems a) (<[index := o]> (props a)).

(** The state of [App]: the store of arrays and the reference that
    [useState] holds. *)
Record state : Type := mkState {
  store : gmap positive jsarray;
  palette : positive
}.

Definition alloc (h : gmap positive jsarray) (a : jsarray)
  : positive * gmap positive jsarray :=
  let l := fresh (dom h) in (l, <[l := a]> h).

Definition setPalette (h : gmap positive jsarray) (newPalette : positive) : state :=
  mkState h newPalette.

Definition updateAttrForIndex (st : state) (index : Z) (attr : ColorKey) (v : value)
  : result state :=
  let '(newPalette, h) := alloc (store st) (JSON_clone (store st !!! palette st)) in
  let a := h !!! newPalette in
  let h' := <[newPalette :=
                array_set a index (<[key attr := v]> (spread (array_get a index)))]> h in
  Ok (setPalette h' newPalette).

(** ** The inputs of [ColorPicker] *)

(** The result of [Number(text)]. *)
Inductive jsnumber : Type :=
| NaN
| Num (r : R).

#[export] Instance R_eq_dec : EqDecision R := Req_dec_T.

(** [x || d]: the falsy numbers are [NaN] and zero. *)
Definition or_default (x : jsnumber) (d : R) : R :=
  match x with
  | NaN => d
  | Num r => if decide (r = 0) then d else r
  end.

(** White space that [Number] strips: tab, line feed, vertical tab, form
    feed, carriage return and space. *)
Definition is_space (c : ascii) : bool :=
  let n := nat_of_ascii c in
  ((9 <=? n) && (n <=? 13) || (n =? 32))%nat.

Fixpoint ltrim (s : string) : string :=
  match s with
  | String c s' => if is_space c then ltrim s' else s
  | EmptyString => s
  end.

Definition trim (s : string) : string :=
  String.rev (ltrim (String.rev (ltrim s))).

Definition digit_of (c : ascii) : option Z :=
  let n := nat_of_ascii c in
  if ((48 <=? n) && (n <=? 57))%nat then Some (Z.of_nat n - 48)%Z else None.

(** Reads a run of decimal digits: its value after [acc], how many digits
    were read after [count], and the rest of the text. *)
Fixpoint read_digits (s : string) (acc : Z) (count : nat) : Z * nat * string :=
  match s with
  | String c s' =>
      match digit_of c with
      | Some d => read_digits s' (10 * acc + d)%Z (S count)
      | None => (acc, count, s)
      end
  | EmptyString => (acc, count, s)
  end.

(** Reads an optional sign: whether it is a minus, and the rest. *)
Definition read_sign (s : string) : bool * string :=
  match s with
  | String "-" s' => (true, s')
  | String "+" s' => (false, s')
  | _ => (false, s)
  end.

(** The decimal [± m * 10^e]. *)
Definition decimal (neg : bool) (m e : Z) : R :=
  (if neg then - IZR m else IZR m) * powerRZ 10 e.

(** [Number(text)] on the texts a number input yields: the empty text is
    zero, a signed decimal literal with optional fraction and exponent is
    its value, anything else is [NaN].  (The literals [Infinity], [0x..],
    [0o..] and [0b..], which a number input never yields, are not read.)
    The value is the decimal itself: the rounding to a double, with its
    overflow to [Infinity] and underflow to zero at the two ends of the
    range, is not modelled, and the properties of the stored number are
    stated for decimals well inside that range. *)
Definition Number (text : string) : jsnumber :=
  let s := trim text in
  match s with
  | EmptyString => Num 0
  | _ =>
      let '(neg, s1) := read_sign s in
      let '(ip, n1, s2) := read_digits s1 0 0 in
      let '(m, n2, s3) :=
        match s2 with
        | String "." s' => read_digits s' ip 0
        | _ => (ip, 0%nat, s2)
        end in
      if (n1 + n2 =? 0)%nat then NaN else
      match s3 with
      | EmptyString => Num (decimal neg m (- Z.of_nat n2))
      | String c s' =>
          if (Ascii.eqb c "e" || Ascii.eqb c "E")%bool then
            let '(eneg, s4) := read_sign s' in
            let '(ev, n3, s5) := read_digits s4 0 0 in
            match n3, s5 with
            | S _, EmptyString =>
                Num (decimal neg m ((if eneg then - ev else ev) - Z.of_nat n2))
            | _, _ => NaN
            end
          else NaN
      end
  end.

Definition ShadingFunction_name (f : ShadingFunction) : string :=
  match f with
  | linear => "linear"
  | easeIn => "easeIn"
  | easeOut => "easeOut"
  | easeInOut => "easeInOut"
  end.

(** The setters [ColorPickers] hands to the picker of entry [i]. *)
Definition setName (st : state) (i : Z) (name : string) : result state :=
  updateAttrForIndex st i Kname (VStr name).
Definition setHex (st : state) (i : Z) (hex : string) : result state :=
  updateAttrForIndex st i Khex (VStr hex).
Definition setShadingFunction (st : state) (i : Z) (f : ShadingFunction) : result state :=
  updateAttrForIndex st i KshadingFunction (VStr (ShadingFunction_name f)).
Definition setWhiteMixRatio (st : state) (i : Z) (r : R) : result state :=
  updateAttrForIndex st i KwhiteMixRatio (VNum r).
Definition setBlackMixRatio (st : state) (i : Z) (r : R) : result state :=
  updateAttrForIndex st i KblackMixRatio (VNum r).

(** The [onChange] handlers of the two ratio inputs, on the text typed. *)
Definition onChangeWhiteMixRatio (st : state) (i : Z) (text : string) : result state :=
  setWhiteMixRatio st i (or_default (Number text) 0.9).
Definition onChangeBlackMixRatio (st : state) (i : Z) (text : string) : result state :=
  setBlackMixRatio st i (or_default (Number text) 0.9).

(** ** The default palette *)

Definition hue (nm hx : string) : Color := mkColor nm hx 5 easeInOut 0.9 0.85.

Definition DEFAULT_COLORS : list Color :=
  [ mkColor "gray" "#302c2c" 7 easeOut 0.9 0.85;
    hue "yellow" "#ffdc40";
    hue "red" "#e4593e";
    hue "teal" "#18aa96";
    hue "blue" "#45a4f9";
    hue "green" "#79cb3a" ].

(** A [Color] as the object the store holds. *)
Definition Color_object (c : Color) : gmap string value :=
  <[key Kname := VStr (name c)]>
  (<[key Khex := VStr (hex c)]>
  (<[key KtargetIndex := VNum (IZR (targetIndex c))]>
  (<[key KshadingFunction := VStr (ShadingFunction_name (shadingFunction c))]>
  (<[key KwhiteMixRatio := VNum (whiteMixRatio c)]>
  (<[key KblackMixRatio := VNum (blackMixRatio c)]> ∅))))).

Definition Array_of (colors : list Color) : jsarray :=
  mkArray ((fun c => Object (Color_object c)) <$> colors) ∅.

(** [useState([...DEFAULT_COLORS])]. *)
Definition App_init : state :=
  mkState {[ 1%positive := Array_of DEFAULT_COLORS ]} 1%positive.

(** ** Sample data *)

(** A colour reader to run the development on: white, black, and the
    coordinates of a mid grey for any other text. *)
Definition sample_chroma (s : string) : Lab :=
  if decide (s = "#fff") then mkLab 100 0 0
  else if decide (s = "#000") then mkLab 0 0 0
  else mkLab 50 0 0.

Definition sample_css (c : Lab) : string := "hsl(0deg 0% 50%)".

Definition grey (t : Z) (f : ShadingFunction) (w b : R) : Color :=
  mkColor "grey" "#777777" t f w b.

(** The red entry of the default palette. *)
Definition red : Color := hue "red" "#e4593e".

(** Squared distance of two colours in LAB. *)
Definition Lab_dist2 (a b : Lab) : R :=
  (lab_l a - lab_l b) ^ 2 + (lab_a a - lab_a b) ^ 2 + (lab_b a - lab_b b) ^ 2.

(** A seed with one of its two ratios replaced. *)
Definition with_whiteMixRatio (c : Color) (r : R) : Color :=
  mkColor (name c) (hex c) (targetIndex c) (shadingFunction c) r (blackMixRatio c).
Definition with_blackMixRatio (c : Color) (r : R) : Color :=
  mkColor (name c) (hex c) (targetIndex c) (shadingFunction c) (whiteMixRatio c) r.

(** ** The swatches *)

(** [colors[k]] for an integer [k]; [None] stands for [undefined]. *)
Definition list_at {A} (l : list A) (k : Z) : option A :=
  if decide (0 <= k)%Z then l !! Z.to_nat k else None.

(** A colour argument of a chroma-js function: [undefined] is no colour. *)
Definition chroma_arg (x : option Lab) : result Lab :=
  match x with
  | Some c => Ok c
  | None => Err InvalidColorFormat
  end.

Section Swatch.

Variable chroma : string -> Lab.
(** [color.css()], [color.luminance()] and [color.hsl()] of chroma-js, and
    [Number.prototype.toFixed]. *)
Variable css : Lab -> string.
Variable luminance : Lab -> R.
Variable hsl : Lab -> jsnumber * jsnumber * jsnumber.
Variable toFixed : jsnumber -> nat -> string.

(** Modelled from the spec: [chroma.contrast(a, b)] of chroma-js, the
    "WCAG-style relative luminance contrast ratio, symmetric in its
    arguments": the lighter luminance plus 0.05 over the darker plus 0.05. *)
Definition contrast (a b : Lab) : R :=
  let l1 := luminance a in
  let l2 := luminance b in
  if Rgt_dec l1 l2 then (l1 + 0.05) / (l2 + 0.05) else (l2 + 0.05) / (l1 + 0.05).

Definition formatHslStr (color : Lab) : string :=
  let '(h, s, l) := hsl color in
  trim (nl +:+ "hsl(" +:+ toFixed h 2 +:+ nl +:+
        "    " +:+ toFixed s 2 +:+ "%" +:+ nl +:+
        "    " +:+ toFixed l 2 +:+ "%)").

(** One block of a swatch: its background, the colour of its text, and
    the text. *)
Record shade : Type := mkShade {
  background : string;
  fontColor : string;
  label : string
}.

Definition Shades (colors : list Lab) : result (list shade) :=
  let brightest := list_at colors 0 in
  let darkest := list_at colors (Z.of_nat (length colors) - 1) in
  mapM (fun color =>
          b ← chroma_arg brightest;
          d ← chroma_arg darkest;
          let fontColor :=
            if Rge_dec (contrast b color) (contrast d color) then b else d in
          mret (mkShade (css color) (css fontColor) (formatHslStr color)))
       colors.

Definition Swatches (colors : list Color) : result (list (list shade)) :=
  mapM (fun color => shades ← getShades chroma color; Shades shades) colors.

End Swatch.

(** ** The pickers *)

(** The [key] and [id] of the picker of entry [i], and the ids of its five
    inputs. *)
Definition picker_id (i : nat) (color : Color) : string :=
  pretty i +:+ "-" +:+ name color.

Definition nameInputId (id : string) : string := id +:+ "-name".
Definition hexInputId (id : string) : string := id +:+ "-hex".
Definition shadingFunctionSelectId (id : string) : string := id +:+ "-shading-function".
Definition whiteMixRatioInputId (id : string) : string := id +:+ "-white-mix-ratio".
Definition blackMixRatioInputId (id : string) : string := id +:+ "-black-mix-ratio".

Definition input_ids (id : string) : list string :=
  [ nameInputId id; hexInputId id; shadingFunctionSelectId id;
    whiteMixRatioInputId id; blackMixRatioInputId id ].

(** A change event on one of the five inputs of the picker of entry [i]:
    the text typed, or the option selected. *)
Inductive edit : Type :=
| EditName (i : nat) (text : string)
| EditHex (i : nat) (text : string)
| EditShadingFunction (i : nat) (f : ShadingFunction)
| EditWhiteMixRatio (i : nat) (text : string)
| EditBlackMixRatio (i : nat) (text : string).

Definition edit_index (e : edit) : nat :=
  match e with
  | EditName i _ | EditHex i _ | EditShadingFunction i _
  | EditWhiteMixRatio i _ | EditBlackMixRatio i _ => i
  end.

(** The [onChange] handler the event reaches. *)
Definition onChange (st : state) (e : edit) : result state :=
  match e with
  | EditName i text => setName st (Z.of_nat i) text
  | EditHex i text => setHex st (Z.of_nat i) text
  | EditShadingFunction i f => setShadingFunction st (Z.of_nat i) f
  | EditWhiteMixRatio i text => onChangeWhiteMixRatio st (Z.of_nat i) text
  | EditBlackMixRatio i text => onChangeBlackMixRatio st (Z.of_nat i) text
  end.

(** One event: [ColorPickers] renders a picker for each entry of the
    palette, so the index of an event is the index of an entry. *)
Definition step (st st' : state) : Prop :=
  ∃ (e : edit) (a : jsarray),
    store st !! palette st = Some a ∧
    (edit_index e < length (elems a))%nat ∧
    onChange st e = Ok st'.

(** The palette of a state read as seed colours. *)
Definition palette_is (st : state) (colors : list Color) : Prop :=
  store st !! palette st = Some (Array_of colors).

(** What an event makes of the seed colour it edits. *)
Definition edited (c : Color) (e : edit) : Color :=
  match e with
  | EditName _ text =>
      mkColor text (hex c) (targetIndex c) (shadingFunction c)
              (whiteMixRatio c) (blackMixRatio c)
  | EditHex _ text =>
      mkColor (name c) text (targetIndex c) (shadingFunction c)
              (whiteMixRatio c) (blackMixRatio c)
  | EditShadingFunction _ f =>
      mkColor (name c) (hex c) (targetIndex c) f
              (whiteMixRatio c) (blackMixRatio c)
  | EditWhiteMixRatio _ text => with_whiteMixRatio c (or_default (Number text) 0.9)
  | EditBlackMixRatio _ text => with_blackMixRatio c (or_default (Number text) 0.9)
  end.

(** A text without the character ["-"]. *)
Fixpoint dash_free (s : string) : Prop :=
  match s with
  | EmptyString => True
  | String a s' => a ≠ "-"%char ∧ dash_free s'
  end.

(** The field an event edits. *)
Definition edit_field (e : edit) : ColorKey :=
  match e with
  | EditName _ _ => Kname
  | EditHex _ _ => Khex
  | EditShadingFunction _ _ => KshadingFunction
  | EditWhiteMixRatio _ _ => KwhiteMixRatio
  | EditBlackMixRatio _ _ => KblackMixRatio
  end.

(** The value an event stores in that field. *)
Definition edit_value (e : edit) : value :=
  match e with
  | EditName _ text => VStr text
  | EditHex _ text => VStr text
  | EditShadingFunction _ f => VStr (ShadingFunction_name f)
  | EditWhiteMixRatio _ text => VNum (or_default (Number text) 0.9)
  | EditBlackMixRatio _ text => VNum (or_default (Number text) 0.9)
  end.

(** An event that stores a number stores one within the range of a
    double (a larger one is Infinity in JavaScript). *)
Definition edit_finite (e : edit) : Prop :=
  match edit_value e with
  | VNum r => Rabs r <= 1e308
  | VStr _ => True
  end.

(** The custom property that the declaration of shade [i] declares. *)
Definition custom_property (color : Color) (i : nat) : string :=
  "--" +:+ name color +:+ "-" +:+ pretty i.

(** A luminance to run the swatches on: the lightness as a fraction. *)
Definition sample_luminance (c : Lab) : R := lab_l c / 100.

Definition sample_hsl (c : Lab) : jsnumber * jsnumber * jsnumber :=
  (NaN, Num 0, Num (lab_l c / 100)).

Definition sample_toFixed (x : jsnumber) (digits : nat) : string :=
  match x with
  | NaN => "NaN"
  | Num _ => "0.50"
  end.

Definition three_greys : list Lab := [mkLab 90 0 0; mkLab 50 0 0; mkLab 10 0 0].

(** A state whose palette has an empty slot and a [null]. *)
Definition sparse_state : state :=
  mkState {[ 1%positive := mkArray [Hole; Null] ∅ ]} 1%positive.

(** * Properties *)

(** ** The easing table *)

Lemma SHADING_0 f : SHADING f 0 = 0.
Proof.
  destruct f; simpl.
  - reflexivity.
  - replace (0 * PI / 2) with 0 by lra. rewrite cos_0. lra.
  - replace (0 * PI / 2) with 0 by lra. apply sin_0.
  - replace (0 * PI) with 0 by lra. rewrite cos_0. lra.
Qed.

Lemma SHADING_1 f : SHADING f 1 = 1.
Proof.
  destruct f; simpl.
  - reflexivity.
  - replace (1 * PI / 2) with (PI / 2) by lra. rewrite cos_PI2. lra.
  - replace (1 * PI / 2) with (PI / 2) by lra. apply sin_PI2.
  - replace (1 * PI) with PI by lra. rewrite cos_PI. lra.
Qed.

(** C7: each of the four easing functions maps 0 to 0 and 1 to 1 within
    the tolerance 1e-9 (over the reals the two equations hold exactly). *)
Theorem SHADING_endpoints (f : ShadingFunction) :
  Rabs (SHADING f 0 - 0) <= 1e-9 /\ Rabs (SHADING f 1 - 1) <= 1e-9.
Proof.
  rewrite SHADING_0, SHADING_1.
  replace (0 - 0) with 0 by lra. replace (1 - 1) with 0 by lra.
  rewrite Rabs_R0. split; lra.
Qed.

(** ** The result monad *)

Lemma mapM_Ok {A B} (f : A -> result B) (g : A -> B) (l : list A) :
  (forall x, x ∈ l -> f x = Ok (g x)) -> mapM f l = Ok (g <$> l).
Proof.
  induction l as [|x l IH]; intros Hf; simpl.
  - reflexivity.
  - rewrite (Hf x) by apply list_elem_of_here. simpl.
    rewrite IH by (intros y Hy; apply Hf; by apply list_elem_of_further).
    reflexivity.
Qed.

Lemma Ok_inj {A} (a b : A) : Ok a = Ok b -> a = b.
Proof. intros E. by injection E. Qed.

Lemma Array_keys_Ok (n : Z) : (0 <= n < 2 ^ 32)%Z -> Array_keys n = Ok (seqZ 0 n).
Proof. intros Hn. unfold Array_keys. by rewrite decide_True. Qed.

Lemma Array_keys_Err (n : Z) : ¬ (0 <= n < 2 ^ 32)%Z -> Array_keys n = Err RangeError.
Proof. intros Hn. unfold Array_keys. by rewrite decide_False. Qed.

Lemma js_div_Ok (a b : Z) : b ≠ 0%Z -> js_div a b = Ok (IZR a / IZR b).
Proof. intros Hb. unfold js_div. by rewrite decide_False. Qed.

(** ** The shade generator *)

Section GeneratorFacts.

Variable chroma : string -> Lab.

Lemma tail_indices (m : Z) : (fun i => (i + 1)%Z) <$> seqZ 0 m = seqZ 1 m.
Proof.
  transitivity (Z.add 1 <$> seqZ 0 m).
  - apply list_fmap_ext. intros _ x _. lia.
  - exact (fmap_add_seqZ 1 0 m).
Qed.

(** Whenever the two calls of [Array] succeed, the ramp is the head
    followed by the tail; no quotient by zero is taken. *)
Lemma getShades_Ok (c : Color) :
  (-1 <= targetIndex c <= 9)%Z ->
  getShades chroma c = Ok (headSamples chroma c ++ tailSamples chroma c).
Proof.
  intros Ht. unfold getShades. cbv zeta.
  rewrite (Array_keys_Ok (targetIndex c + 1)) by lia.
  rewrite (Array_keys_Ok (10 - (targetIndex c + 1))) by lia. simpl.
  rewrite (mapM_Ok _ (headSample chroma c) (seqZ 0 (targetIndex c + 1)));
    last first.
  { intros i Hi. apply elem_of_seqZ in Hi.
    rewrite js_div_Ok by lia. reflexivity. }
  simpl. rewrite tail_indices.
  replace (10 - (targetIndex c + 1))%Z with (tailLength c)
    by (unfold tailLength; lia).
  rewrite (mapM_Ok _ (tailSample chroma c) (seqZ 1 (tailLength c)));
    last first.
  { intros j Hj. apply elem_of_seqZ in Hj.
    rewrite js_div_Ok by lia. reflexivity. }
  reflexivity.
Qed.

Lemma length_headSamples (c : Color) :
  length (headSamples chroma c) = Z.to_nat (targetIndex c + 1).
Proof. unfold headSamples. by rewrite length_fmap, length_seqZ. Qed.

Lemma length_tailSamples (c : Color) :
  length (tailSamples chroma c) = Z.to_nat (9 - targetIndex c).
Proof. unfold tailSamples. by rewrite length_fmap, length_seqZ. Qed.

Lemma lookup_headSamples (c : Color) (i : Z) :
  (0 <= i <= targetIndex c)%Z ->
  headSamples chroma c !! Z.to_nat i = Some (headSample chroma c i).
Proof.
  intros Hi. unfold headSamples. rewrite list_lookup_fmap.
  rewrite lookup_seqZ_lt by (unfold headLength; lia).
  simpl. do 2 f_equal. lia.
Qed.

Lemma lookup_tailSamples (c : Color) (j : Z) :
  (1 <= j <= 9 - targetIndex c)%Z ->
  tailSamples chroma c !! Z.to_nat (j - 1) = Some (tailSample chroma c j).
Proof.
  intros Hj. unfold tailSamples. rewrite list_lookup_fmap.
  rewrite lookup_seqZ_lt by (unfold tailLength; lia).
  simpl. do 2 f_equal. lia.
Qed.

End GeneratorFacts.

(** ** Easing inside the unit interval *)

Lemma SHADING_mono f (x y : R) :
  0 <= x -> x <= y -> y <= 1 -> SHADING f x <= SHADING f y.
Proof.
  intros H0 Hxy H1. pose proof PI_RGT_0 as Hpi.
  destruct f; simpl.
  - exact Hxy.
  - assert (cos (y * PI / 2) <= cos (x * PI / 2)); [|lra].
    apply cos_decr_1; nra.
  - apply sin_incr_1; nra.
  - assert (cos (y * PI) <= cos (x * PI)); [|lra].
    apply cos_decr_1; nra.
Qed.

Lemma SHADING_lt_1 f (x : R) : 0 <= x -> x < 1 -> SHADING f x < 1.
Proof.
  intros H0 H1. pose proof PI_RGT_0 as Hpi.
  destruct f; simpl.
  - exact H1.
  - assert (0 < cos (x * PI / 2)); [|lra].
    apply cos_gt_0; nra.
  - rewrite <- sin_PI2. apply sin_increasing_1; nra.
  - assert (cos PI < cos (x * PI)); [|rewrite cos_PI in *; lra].
    apply cos_decreasing_1; nra.
Qed.

Lemma SHADING_nonneg f (x : R) : 0 <= x -> x <= 1 -> 0 <= SHADING f x.
Proof.
  intros H0 H1. rewrite <- (SHADING_0 f). apply SHADING_mono; lra.
Qed.

Lemma quotient_unit (i n : Z) :
  (0 <= i < n)%Z -> 0 <= IZR i / IZR n < 1.
Proof.
  intros [Hi Hn]. apply IZR_le in Hi. apply IZR_lt in Hn.
  assert (0 < IZR n) as Hpos by lra.
  assert (IZR i = IZR i / IZR n * IZR n) as E by (field; lra).
  split.
  - apply Rmult_le_reg_r with (IZR n); [exact Hpos|]. lra.
  - apply Rmult_lt_reg_r with (IZR n); [exact Hpos|]. lra.
Qed.

Lemma quotient_pos (j m : Z) : (1 <= j <= m)%Z -> 0 < IZR j / IZR m <= 1.
Proof.
  intros [Hj Hm]. assert (0 < m)%Z as Hm0 by lia.
  apply IZR_le in Hj, Hm. apply IZR_lt in Hm0.
  assert (IZR j = IZR j / IZR m * IZR m) as E by (field; lra).
  split.
  - apply Rmult_lt_reg_r with (IZR m); [exact Hm0|]. lra.
  - apply Rmult_le_reg_r with (IZR m); [exact Hm0|]. lra.
Qed.

Lemma quotient_self (m : Z) : m ≠ 0%Z -> IZR m / IZR m = 1.
Proof. intros Hm. field. by apply not_0_IZR. Qed.

Lemma quotient_le (i j n : Z) :
  (i <= j)%Z -> (0 < n)%Z -> IZR i / IZR n <= IZR j / IZR n.
Proof.
  intros Hij Hn. apply IZR_le in Hij. apply IZR_lt in Hn.
  unfold Rdiv. apply Rmult_le_compat_r; [|exact Hij].
  left. by apply Rinv_0_lt_compat.
Qed.

(** ** Mixing *)

Lemma Lab_eq (a b : Lab) :
  lab_l a = lab_l b -> lab_a a = lab_a b -> lab_b a = lab_b b -> a = b.
Proof. destruct a, b; simpl; intros; subst; reflexivity. Qed.

Lemma mix_0 (a b : Lab) : mix a b 0 = a.
Proof. apply Lab_eq; unfold mix, lerp; simpl; lra. Qed.

Lemma mix_1 (a b : Lab) : mix a b 1 = b.
Proof. apply Lab_eq; unfold mix, lerp; simpl; lra. Qed.

Lemma mix_same (a : Lab) (t : R) : mix a a t = a.
Proof. apply Lab_eq; unfold mix, lerp; simpl; lra. Qed.

Lemma lerp_inj (x y r r' : R) : lerp x y r = lerp x y r' -> r ≠ r' -> x = y.
Proof. unfold lerp. intros E Hr. nra. Qed.

(** Two different ratios give two different mixes of two different colours. *)
Lemma mix_ratio_inj (a b : Lab) (r r' : R) :
  mix a b r = mix a b r' -> r ≠ r' -> a = b.
Proof.
  intros E Hr. unfold mix in E. injection E as El Ea Eb.
  apply Lab_eq; eapply lerp_inj; eauto.
Qed.

Lemma scale_0 (a b : Lab) : scale a b 0 = a.
Proof. apply mix_0. Qed.

Lemma scale_1 (a b : Lab) : scale a b 1 = b.
Proof. apply mix_1. Qed.

(** A gradient meets its last stop only at parameter 1, and its first stop
    only at parameter 0, unless the two stops coincide. *)
Lemma scale_last (a b : Lab) (t : R) : scale a b t = b -> t ≠ 1 -> a = b.
Proof.
  intros E Ht. unfold scale in E. rewrite <- (mix_1 a b) in E at 2.
  by apply mix_ratio_inj in E.
Qed.

Lemma scale_first (a b : Lab) (t : R) : scale a b t = a -> t ≠ 0 -> a = b.
Proof.
  intros E Ht. unfold scale in E. rewrite <- (mix_0 a b) in E at 2.
  by apply mix_ratio_inj in E.
Qed.

(** ** The ramp *)

Section Ramp.

Variable chroma : string -> Lab.

Lemma headSample_0 (c : Color) :
  (0 <= targetIndex c)%Z -> headSample chroma c 0 = light chroma c.
Proof.
  intros Ht. unfold headSample.
  replace (IZR 0 / IZR (headLength c)) with 0.
  - by rewrite SHADING_0, scale_0.
  - unfold headLength. field. apply not_0_IZR. lia.
Qed.

Lemma tailSample_last (c : Color) :
  (targetIndex c <= 8)%Z -> tailSample chroma c (9 - targetIndex c) = dark chroma c.
Proof.
  intros Ht. unfold tailSample, tailLength.
  rewrite quotient_self by lia. apply scale_1.
Qed.

Lemma ramp_lookup_head (c : Color) (i : Z) :
  (0 <= i <= targetIndex c)%Z ->
  (headSamples chroma c ++ tailSamples chroma c) !! Z.to_nat i
  = Some (headSample chroma c i).
Proof.
  intros Hi. rewrite lookup_app_l by (rewrite length_headSamples; lia).
  by apply lookup_headSamples.
Qed.

Lemma ramp_lookup_tail (c : Color) (j : Z) :
  (0 <= targetIndex c)%Z -> (1 <= j <= 9 - targetIndex c)%Z ->
  (headSamples chroma c ++ tailSamples chroma c) !! Z.to_nat (targetIndex c + j)
  = Some (tailSample chroma c j).
Proof.
  intros Ht Hj. rewrite lookup_app_r by (rewrite length_headSamples; lia).
  rewrite length_headSamples.
  replace (Z.to_nat (targetIndex c + j) - Z.to_nat (targetIndex c + 1))%nat
    with (Z.to_nat (j - 1)) by lia.
  by apply lookup_tailSamples.
Qed.

Lemma ramp_length (c : Color) :
  (-1 <= targetIndex c <= 9)%Z ->
  length (headSamples chroma c ++ tailSamples chroma c) = 10%nat.
Proof.
  intros Ht. rewrite length_app, length_headSamples, length_tailSamples. lia.
Qed.

Lemma ramp_first (c : Color) :
  (0 <= targetIndex c)%Z ->
  (headSamples chroma c ++ tailSamples chroma c) !! 0%nat = Some (light chroma c).
Proof.
  intros Ht. rewrite <- (headSample_0 c Ht).
  apply (ramp_lookup_head c 0). lia.
Qed.

Lemma ramp_last (c : Color) :
  (0 <= targetIndex c <= 8)%Z ->
  (headSamples chroma c ++ tailSamples chroma c) !! 9%nat = Some (dark chroma c).
Proof.
  intros Ht. rewrite <- (tailSample_last c) by lia.
  replace 9%nat with (Z.to_nat (targetIndex c + (9 - targetIndex c))) by lia.
  apply ramp_lookup_tail; lia.
Qed.

(** C1: for a target index in [0, 9] and ratios in [0, 1] the generator
    returns 10 colours: a head of [targetIndex + 1] entries, entry [i]
    being the gradient from the lightest endpoint to the seed at the eased
    parameter of [i / n], followed by a tail of [9 - targetIndex] entries,
    entry [j] being the gradient from the seed to the darkest endpoint at
    [j / m]. *)
Theorem getShades_ramp (c : Color) :
  (0 <= targetIndex c <= 9)%Z ->
  0 <= whiteMixRatio c <= 1 ->
  0 <= blackMixRatio c <= 1 ->
  ∃ hd tl : list Lab,
    getShades chroma c = Ok (hd ++ tl) ∧
    length (hd ++ tl) = 10%nat ∧
    length hd = Z.to_nat (targetIndex c + 1) ∧
    length tl = Z.to_nat (9 - targetIndex c) ∧
    (∀ i : Z, (0 <= i <= targetIndex c)%Z ->
       hd !! Z.to_nat i =
       Some (scale (mix (chroma (hex c)) (chroma "#fff") (whiteMixRatio c))
                   (chroma (hex c))
                   (SHADING (shadingFunction c)
                            (IZR i / IZR (targetIndex c + 1))))) ∧
    (∀ j : Z, (1 <= j <= 9 - targetIndex c)%Z ->
       tl !! Z.to_nat (j - 1) =
       Some (scale (chroma (hex c))
                   (mix (chroma (hex c)) (chroma "#000") (blackMixRatio c))
                   (IZR j / IZR (9 - targetIndex c)))).
Proof.
  intros Ht _ _.
  exists (headSamples chroma c), (tailSamples chroma c).
  split; [apply getShades_Ok; lia|].
  split; [apply ramp_length; lia|].
  split; [apply length_headSamples|].
  split; [apply length_tailSamples|].
  split.
  - intros i Hi. by apply lookup_headSamples.
  - intros j Hj. by apply lookup_tailSamples.
Qed.

(** Whatever the target index, the generator returns a ramp or throws the
    RangeError of [Array]: it never takes a quotient by zero. *)
Lemma getShades_outcome (c : Color) :
  (∃ ramp : list Lab, getShades chroma c = Ok ramp) ∨
  getShades chroma c = Err RangeError.
Proof.
  destruct (decide (-1 <= targetIndex c <= 9)%Z) as [Ht|Ht].
  { left. eexists. by apply getShades_Ok. }
  right. unfold getShades. cbv zeta.
  destruct (decide (0 <= targetIndex c + 1 < 2 ^ 32)%Z) as [Hn|Hn];
    [|by rewrite (Array_keys_Err (targetIndex c + 1))].
  rewrite (Array_keys_Ok (targetIndex c + 1)) by exact Hn.
  rewrite (Array_keys_Err (10 - (targetIndex c + 1))) by lia. simpl.
  rewrite (mapM_Ok _ (headSample chroma c) (seqZ 0 (targetIndex c + 1)));
    last first.
  { intros i Hi. apply elem_of_seqZ in Hi.
    rewrite js_div_Ok by lia. reflexivity. }
  reflexivity.
Qed.

Lemma getShades_no_quotient_by_zero (c : Color) :
  getShades chroma c ≠ Err NotFinite.
Proof.
  destruct (getShades_outcome c) as [[ramp E]|E]; rewrite E; discriminate.
Qed.

(** C3: with target index 9 the tail is empty, no quotient by zero is
    taken and the 10 entries are the eased head; with target index 0 the
    head is the lightest endpoint alone. *)
Theorem getShades_boundaries (c : Color) :
  (targetIndex c = 9%Z ->
     tailSamples chroma c = [] ∧
     getShades chroma c ≠ Err NotFinite ∧
     getShades chroma c = Ok (headSamples chroma c) ∧
     length (headSamples chroma c) = 10%nat) ∧
  (targetIndex c = 0%Z ->
     headSamples chroma c
     = [scale (mix (chroma (hex c)) (chroma "#fff") (whiteMixRatio c))
              (chroma (hex c))
              (SHADING (shadingFunction c) (0 / 1))] ∧
     headSamples chroma c
     = [mix (chroma (hex c)) (chroma "#fff") (whiteMixRatio c)] ∧
     length (tailSamples chroma c) = 9%nat ∧
     getShades chroma c
     = Ok (mix (chroma (hex c)) (chroma "#fff") (whiteMixRatio c)
             :: tailSamples chroma c)).
Proof.
  split; intros Ht.
  - assert (tailSamples chroma c = []) as Etl.
    { unfold tailSamples, tailLength. rewrite Ht. reflexivity. }
    split; [exact Etl|].
    split; [apply getShades_no_quotient_by_zero|]. split.
    + rewrite getShades_Ok by lia. by rewrite Etl, app_nil_r.
    + rewrite length_headSamples, Ht. reflexivity.
  - assert (headSamples chroma c = [headSample chroma c 0]) as Ehd.
    { unfold headSamples, headLength. rewrite Ht. reflexivity. }
    split.
    { rewrite Ehd. unfold headSample, headLength. rewrite Ht. reflexivity. }
    rewrite headSample_0 in Ehd by lia.
    split; [exact Ehd|]. split.
    + rewrite length_tailSamples, Ht. reflexivity.
    + rewrite getShades_Ok by lia. by rewrite Ehd.
Qed.

End Ramp.

(** ** The seed and the two endpoints *)

Lemma Lab_dist2_nonneg (a b : Lab) : 0 <= Lab_dist2 a b.
Proof.
  unfold Lab_dist2.
  pose proof (pow2_ge_0 (lab_l a - lab_l b)).
  pose proof (pow2_ge_0 (lab_a a - lab_a b)).
  pose proof (pow2_ge_0 (lab_b a - lab_b b)).
  lra.
Qed.

Lemma Lab_dist2_scale (a b : Lab) (t : R) :
  Lab_dist2 (scale a b t) b = (1 - t) ^ 2 * Lab_dist2 a b.
Proof. unfold Lab_dist2, scale, mix, lerp. simpl. ring. Qed.

Lemma Lab_dist2_scale_le (a b : Lab) (s t : R) :
  s <= t -> t <= 1 -> Lab_dist2 (scale a b t) b <= Lab_dist2 (scale a b s) b.
Proof.
  intros Hst Ht. rewrite !Lab_dist2_scale.
  apply Rmult_le_compat_r; [apply Lab_dist2_nonneg|nra].
Qed.

Section Seed.

Variable chroma : string -> Lab.

Lemma light_ratio_0 (c : Color) :
  whiteMixRatio c = 0 -> light chroma c = seedLab chroma c.
Proof. intros E. unfold light. rewrite E. apply mix_0. Qed.

Lemma dark_ratio_0 (c : Color) :
  blackMixRatio c = 0 -> dark chroma c = seedLab chroma c.
Proof. intros E. unfold dark. rewrite E. apply mix_0. Qed.

Lemma head_parameter_lt_1 (c : Color) (i : Z) :
  (0 <= i <= targetIndex c)%Z ->
  SHADING (shadingFunction c) (IZR i / IZR (targetIndex c + 1)) < 1.
Proof.
  intros Hi. destruct (quotient_unit i (targetIndex c + 1)) as [H0 H1]; [lia|].
  by apply SHADING_lt_1.
Qed.

Lemma headSample_not_seed (c : Color) (i : Z) :
  (0 <= i <= targetIndex c)%Z ->
  light chroma c ≠ seedLab chroma c ->
  headSample chroma c i ≠ seedLab chroma c.
Proof.
  intros Hi Hne E. apply Hne. unfold headSample in E.
  apply scale_last in E; [exact E|].
  unfold headLength. apply Rlt_not_eq. by apply head_parameter_lt_1.
Qed.

Lemma tailSample_not_seed (c : Color) (j : Z) :
  (1 <= j <= 9 - targetIndex c)%Z ->
  dark chroma c ≠ seedLab chroma c ->
  tailSample chroma c j ≠ seedLab chroma c.
Proof.
  intros Hj Hne E. apply Hne. symmetry. unfold tailSample in E.
  apply scale_first in E; [exact E|].
  destruct (quotient_pos j (9 - targetIndex c) Hj) as [H0 _].
  unfold tailLength. apply not_eq_sym, Rlt_not_eq. exact H0.
Qed.

Lemma headSample_closest (c : Color) (i : Z) :
  (0 <= i <= targetIndex c)%Z ->
  Lab_dist2 (headSample chroma c (targetIndex c)) (seedLab chroma c)
  <= Lab_dist2 (headSample chroma c i) (seedLab chroma c).
Proof.
  intros Hi. unfold headSample, headLength.
  destruct (quotient_unit i (targetIndex c + 1)) as [Hi0 Hi1]; [lia|].
  destruct (quotient_unit (targetIndex c) (targetIndex c + 1)) as [Ht0 Ht1]; [lia|].
  apply Lab_dist2_scale_le.
  - apply SHADING_mono; [lra| |lra]. apply quotient_le; lia.
  - left. apply SHADING_lt_1; lra.
Qed.

(** C2: for a target index of at most 8, entry 9 of the ramp is exactly
    the mix of the seed with black at the black ratio, and the entry at
    the target index is the last head sample: of all head samples the
    nearest to the seed, and different from the seed whenever the lightest
    endpoint is. *)
Theorem getShades_last_entries (c : Color) :
  (0 <= targetIndex c <= 8)%Z ->
  ∃ ramp : list Lab,
    getShades chroma c = Ok ramp ∧
    ramp !! 9%nat
    = Some (mix (chroma (hex c)) (chroma "#000") (blackMixRatio c)) ∧
    ramp !! Z.to_nat (targetIndex c)
    = Some (headSample chroma c (targetIndex c)) ∧
    (∀ i : Z, (0 <= i <= targetIndex c)%Z ->
       Lab_dist2 (headSample chroma c (targetIndex c)) (chroma (hex c))
       <= Lab_dist2 (headSample chroma c i) (chroma (hex c))) ∧
    (mix (chroma (hex c)) (chroma "#fff") (whiteMixRatio c) ≠ chroma (hex c) ->
     headSample chroma c (targetIndex c) ≠ chroma (hex c)).
Proof.
  intros Ht. exists (headSamples chroma c ++ tailSamples chroma c).
  split; [apply getShades_Ok; lia|].
  split; [apply ramp_last; lia|].
  split; [apply ramp_lookup_head; lia|].
  split.
  - intros i Hi. by apply headSample_closest.
  - intros Hne. apply headSample_not_seed; [lia|exact Hne].
Qed.

(** C8: when both the lightest and the darkest endpoint differ from the
    seed colour (the darkest one only matters when there is a tail), the
    seed colour is none of the 10 entries: every head parameter is below
    1 and every tail parameter is above 0. *)
Theorem seed_not_sampled (c : Color) :
  (0 <= targetIndex c <= 9)%Z ->
  mix (chroma (hex c)) (chroma "#fff") (whiteMixRatio c) ≠ chroma (hex c) ->
  (targetIndex c = 9%Z ∨
   mix (chroma (hex c)) (chroma "#000") (blackMixRatio c) ≠ chroma (hex c)) ->
  ∃ ramp : list Lab,
    getShades chroma c = Ok ramp ∧
    length ramp = 10%nat ∧
    (∀ i : Z, (0 <= i <= targetIndex c)%Z ->
       SHADING (shadingFunction c) (IZR i / IZR (targetIndex c + 1)) < 1) ∧
    (∀ j : Z, (1 <= j <= 9 - targetIndex c)%Z ->
       0 < IZR j / IZR (9 - targetIndex c)) ∧
    chroma (hex c) ∉ ramp.
Proof.
  intros Ht Hl Hd. exists (headSamples chroma c ++ tailSamples chroma c).
  split; [apply getShades_Ok; lia|].
  split; [apply ramp_length; lia|].
  split; [intros i Hi; by apply head_parameter_lt_1|].
  split; [intros j Hj; by apply quotient_pos|].
  intros Hin. apply elem_of_app in Hin as [Hin|Hin].
  - unfold headSamples in Hin. apply list_elem_of_fmap in Hin as (i & E & Hi).
    apply elem_of_seqZ in Hi. unfold headLength in Hi.
    symmetry in E. revert E. apply headSample_not_seed; [lia|exact Hl].
  - unfold tailSamples in Hin. apply list_elem_of_fmap in Hin as (j & E & Hj).
    apply elem_of_seqZ in Hj. unfold tailLength in Hj.
    symmetry in E. revert E. apply tailSample_not_seed; [lia|].
    destruct Hd as [Hd|Hd]; [lia|exact Hd].
Qed.

End Seed.

(** ** Ratios outside the unit interval *)

Section Ratios.

Variable chroma : string -> Lab.

(** C4: a ratio outside [0, 1] is no failure and is not clamped: the
    generator hands it to the mix as it is.  For a seed with such a ratio
    the ramp has its 10 entries, entry 0 is the mix with white at the white
    ratio as given and, when there is a tail, entry 9 is the mix with black
    at the black ratio as given. *)
Theorem getShades_ratio_unclamped (c : Color) :
  (0 <= targetIndex c <= 9)%Z ->
  ¬ (0 <= whiteMixRatio c <= 1) ∨ ¬ (0 <= blackMixRatio c <= 1) ->
  ∃ ramp : list Lab,
    getShades chroma c = Ok ramp ∧
    length ramp = 10%nat ∧
    ramp !! 0%nat
    = Some (mix (chroma (hex c)) (chroma "#fff") (whiteMixRatio c)) ∧
    ((targetIndex c <= 8)%Z ->
     ramp !! 9%nat
     = Some (mix (chroma (hex c)) (chroma "#000") (blackMixRatio c))).
Proof.
  intros Ht _. exists (headSamples chroma c ++ tailSamples chroma c).
  split; [apply getShades_Ok; lia|].
  split; [apply ramp_length; lia|].
  split; [apply ramp_first; lia|].
  intros Ht8. apply ramp_last. lia.
Qed.

End Ratios.

(** ** The generator on sample seeds *)

Lemma sample_chroma_seed : sample_chroma "#777777" = mkLab 50 0 0.
Proof. reflexivity. Qed.

Lemma sample_chroma_red : sample_chroma "#e4593e" = mkLab 50 0 0.
Proof. reflexivity. Qed.

Lemma sample_chroma_white : sample_chroma "#fff" = mkLab 100 0 0.
Proof. reflexivity. Qed.

Lemma sample_chroma_black : sample_chroma "#000" = mkLab 0 0 0.
Proof. reflexivity. Qed.

Ltac sample_colours :=
  rewrite ?sample_chroma_seed, ?sample_chroma_red,
    ?sample_chroma_white, ?sample_chroma_black.

(** Two colours with different lightness are different. *)
Ltac lightness_differs :=
  let E := fresh "E" in
  intros E; apply (f_equal lab_l) in E;
  unfold mix, lerp in E; simpl in E; sample_colours; simpl in E; lra.

Lemma getShades_ramp_witness :
  ∃ hd tl : list Lab,
    getShades sample_chroma red = Ok (hd ++ tl) ∧ length (hd ++ tl) = 10%nat.
Proof.
  destruct (getShades_ramp sample_chroma red) as (hd & tl & E & L & _).
  - simpl. lia.
  - simpl. lra.
  - simpl. lra.
  - exists hd, tl. split; assumption.
Defined.

Lemma getShades_boundaries_witness :
  getShades sample_chroma (grey 9 easeOut 0.9 0.85)
  = Ok (headSamples sample_chroma (grey 9 easeOut 0.9 0.85)) ∧
  headSamples sample_chroma (grey 0 easeOut 0.9 0.85)
  = [mix (sample_chroma "#777777") (sample_chroma "#fff") 0.9].
Proof.
  split.
  - apply (getShades_boundaries sample_chroma (grey 9 easeOut 0.9 0.85)).
    reflexivity.
  - apply (getShades_boundaries sample_chroma (grey 0 easeOut 0.9 0.85)).
    reflexivity.
Defined.

Lemma getShades_last_entries_witness :
  ∃ ramp : list Lab,
    getShades sample_chroma red = Ok ramp ∧
    ramp !! 9%nat = Some (mix (sample_chroma "#e4593e") (sample_chroma "#000") 0.85).
Proof.
  destruct (getShades_last_entries sample_chroma red) as (ramp & E & E9 & _).
  - simpl. lia.
  - exists ramp. split; assumption.
Defined.

(** With a white ratio of 0 the lightest endpoint is the seed, and so is
    the entry at the target index. *)
Lemma last_head_sample_is_seed :
  (0 <= targetIndex (grey 5 easeInOut 0 0.85) <= 8)%Z ∧
  ∃ ramp : list Lab,
    getShades sample_chroma (grey 5 easeInOut 0 0.85) = Ok ramp ∧
    ramp !! Z.to_nat (targetIndex (grey 5 easeInOut 0 0.85))
    = Some (sample_chroma (hex (grey 5 easeInOut 0 0.85))).
Proof.
  split; [simpl; lia|].
  eexists. split; [apply getShades_Ok; simpl; lia|].
  rewrite ramp_lookup_head by (simpl; lia). f_equal.
  unfold headSample. rewrite light_ratio_0 by reflexivity.
  apply mix_same.
Qed.

Lemma seed_not_sampled_witness :
  ∃ ramp : list Lab,
    getShades sample_chroma red = Ok ramp ∧ sample_chroma "#e4593e" ∉ ramp.
Proof.
  destruct (seed_not_sampled sample_chroma red) as (ramp & E & _ & _ & _ & Hn).
  - simpl. lia.
  - lightness_differs.
  - right. lightness_differs.
  - exists ramp. split; assumption.
Defined.

(** With a black ratio of 0 the darkest endpoint is the seed: the lightest
    endpoint differs from the seed, and yet the seed is entry 9. *)
Lemma seed_sampled_in_tail :
  light sample_chroma (grey 5 easeInOut 0.9 0)
  ≠ seedLab sample_chroma (grey 5 easeInOut 0.9 0) ∧
  ∃ ramp : list Lab,
    getShades sample_chroma (grey 5 easeInOut 0.9 0) = Ok ramp ∧
    seedLab sample_chroma (grey 5 easeInOut 0.9 0) ∈ ramp.
Proof.
  split.
  - unfold light, seedLab, WHITE. lightness_differs.
  - eexists. split; [apply getShades_Ok; simpl; lia|].
    apply list_elem_of_lookup. exists 9%nat.
    rewrite ramp_last by (simpl; lia). f_equal.
    by apply dark_ratio_0.
Qed.

Lemma getShades_ratio_unclamped_witness :
  ∃ ramp : list Lab,
    getShades sample_chroma (grey 5 easeInOut (-0.5) 0.85) = Ok ramp ∧
    ramp !! 0%nat
    = Some (mix (sample_chroma "#777777") (sample_chroma "#fff") (-0.5)) ∧
    ramp !! 9%nat
    = Some (mix (sample_chroma "#777777") (sample_chroma "#000") 0.85).
Proof.
  destruct (getShades_ratio_unclamped sample_chroma (grey 5 easeInOut (-0.5) 0.85))
    as (ramp & E & _ & H0 & H9).
  - simpl. lia.
  - left. simpl. lra.
  - exists ramp. split; [exact E|]. split; [exact H0|].
    apply H9. simpl. lia.
Defined.

(** A white ratio of -0.5 does not give the ramp of the white ratio 0: the
    lightest endpoint is darker than the seed instead of the seed. *)
Lemma negative_ratio_is_not_ratio_0 :
  getShades sample_chroma (grey 5 easeInOut (-0.5) 0.85)
  ≠ getShades sample_chroma (grey 5 easeInOut 0 0.85).
Proof.
  rewrite !getShades_Ok by (simpl; lia). intros E.
  apply Ok_inj in E. apply (f_equal (fun l : list Lab => l !! 0%nat)) in E.
  rewrite !ramp_first in E by (simpl; lia).
  apply (inj Some) in E. revert E. unfold light, seedLab, WHITE.
  lightness_differs.
Qed.

(** ** The CSS export *)

Lemma length_concat_uniform {A} (n : nat) (ls : list (list A)) :
  Forall (fun l => length l = n) ls -> length (concat ls) = (n * length ls)%nat.
Proof.
  induction 1 as [|l ls Hl _ IH]; simpl.
  - lia.
  - rewrite length_app, IH, Hl. lia.
Qed.

Lemma lookup_concat_uniform {A} (n : nat) (ls : list (list A)) (p i : nat) (l : list A) :
  Forall (fun l => length l = n) ls ->
  ls !! p = Some l -> (i < n)%nat ->
  concat ls !! (n * p + i)%nat = l !! i.
Proof.
  intros Hall. revert p. induction Hall as [|l0 ls Hl0 _ IH]; intros p Hp Hi.
  - by rewrite lookup_nil in Hp.
  - destruct p as [|p]; simpl in *.
    + injection Hp as ->. rewrite lookup_app_l by lia. f_equal. lia.
    + rewrite lookup_app_r by lia.
      replace (n * S p + i - length l0)%nat with (n * p + i)%nat by lia.
      by apply IH.
Qed.

Section ExportFacts.

Variable chroma : string -> Lab.
Variable css : Lab -> string.

Lemma length_entry_lines (color : Color) :
  (0 <= targetIndex color <= 9)%Z -> length (entry_lines chroma css color) = 10%nat.
Proof.
  intros Ht. unfold entry_lines. rewrite length_imap. apply ramp_length. lia.
Qed.

Lemma CssVariablesOutput_Ok (colors : list Color) :
  Forall (fun c => (0 <= targetIndex c <= 9)%Z) colors ->
  CssVariablesOutput chroma css colors
  = Ok (":root {" +:+ nl +:+ Array_join nl (concat (entry_lines chroma css <$> colors))
          +:+ nl +:+ "}").
Proof.
  intros Hall. unfold CssVariablesOutput.
  rewrite (mapM_Ok _ (entry_lines chroma css)); [reflexivity|].
  intros color Hin. rewrite Forall_forall in Hall.
  rewrite getShades_Ok by (specialize (Hall color Hin); simpl in Hall; lia).
  reflexivity.
Qed.

Lemma string_app_cons (a : ascii) (s1 s2 : string) :
  String a s1 +:+ s2 = String a (s1 +:+ s2).
Proof. reflexivity. Qed.

Lemma string_app_nil_l (s : string) : "" +:+ s = s.
Proof. reflexivity. Qed.

Lemma string_app_assoc (s1 s2 s3 : string) : (s1 +:+ s2) +:+ s3 = s1 +:+ (s2 +:+ s3).
Proof.
  induction s1 as [|a s1 IH]; [reflexivity|].
  rewrite !string_app_cons. by f_equal.
Qed.

(** The [join] of the code is the [concat] of the Standard Library. *)
Lemma Array_join_concat (sep : string) (l : list string) :
  Array_join sep l = String.concat sep l.
Proof.
  induction l as [|x l IH]; [reflexivity|].
  destruct l as [|y l]; [reflexivity|].
  simpl in *. by rewrite IH.
Qed.

(** Lines joined by line breaks and followed by a line break and a closing
    text are the lines each followed by a line break, then that text. *)
Lemma concat_lines (l : list string) (close : string) :
  l ≠ [] ->
  String.concat nl l +:+ nl +:+ close
  = foldr (fun line rest => line +:+ nl +:+ rest) close l.
Proof.
  induction l as [|x l IH]; [done|]. intros _.
  destruct l as [|y l]; [reflexivity|].
  change (String.concat nl (x :: y :: l))
    with (x +:+ nl +:+ String.concat nl (y :: l)).
  rewrite !string_app_assoc, IH by done. reflexivity.
Qed.

(** C9: for a palette of [k] entries the export is [":root {"], a line
    break, [10 * k] declaration lines joined by line breaks, a line break and
    ["}"]; line [10 * p + i] is the declaration of shade [i] of entry [p].
    The text is given without the [join] of the code: as the lines joined by
    the Standard Library, and, when there is an entry, as [":root {"] and
    each line in turn followed by a line break, then ["}"]; the line break
    is the one line feed character. *)
Theorem CssVariablesOutput_shape (colors : list Color) :
  Forall (fun c => (0 <= targetIndex c <= 9)%Z) colors ->
  nl = String (ascii_of_nat 10) EmptyString ∧
  ∃ lines : list string,
    CssVariablesOutput chroma css colors
    = Ok (":root {" +:+ nl +:+ String.concat nl lines +:+ nl +:+ "}") ∧
    (colors ≠ [] ->
     CssVariablesOutput chroma css colors
     = Ok (":root {" +:+ nl +:+
           foldr (fun line rest => line +:+ nl +:+ rest) "}" lines)) ∧
    (colors = [] ->
     CssVariablesOutput chroma css colors = Ok (":root {" +:+ nl +:+ nl +:+ "}")) ∧
    length lines = (10 * length colors)%nat ∧
    ∀ (p i : nat) (color : Color),
      colors !! p = Some color -> (i < 10)%nat ->
      ∃ (ramp : list Lab) (shade : Lab),
        getShades chroma color = Ok ramp ∧
        ramp !! i = Some shade ∧
        lines !! (10 * p + i)%nat
        = Some ("  --" +:+ name color +:+ "-" +:+ pretty i +:+ ": "
                  +:+ css shade +:+ ";").
Proof.
  intros Hall. split; [reflexivity|].
  exists (concat (entry_lines chroma css <$> colors)).
  assert (Forall (fun l => length l = 10%nat) (entry_lines chroma css <$> colors))
    as Hlen.
  { apply Forall_fmap. eapply Forall_impl; [exact Hall|].
    intros c Hc. simpl. by apply length_entry_lines. }
  assert (length (concat (entry_lines chroma css <$> colors))
          = (10 * length colors)%nat) as Hcount.
  { by rewrite (length_concat_uniform 10), length_fmap. }
  assert (CssVariablesOutput chroma css colors
          = Ok (":root {" +:+ nl +:+
                String.concat nl (concat (entry_lines chroma css <$> colors))
                +:+ nl +:+ "}")) as Etext.
  { rewrite <- Array_join_concat. by apply CssVariablesOutput_Ok. }
  split; [exact Etext|].
  split.
  { intros Hne. rewrite Etext. do 3 f_equal. apply concat_lines.
    intros Hnil. rewrite Hnil in Hcount. simpl in Hcount.
    destruct colors; [done|simpl in Hcount; lia]. }
  split; [intros ->; reflexivity|].
  split; [exact Hcount|].
  intros p i color Hp Hi.
  assert (0 <= targetIndex color <= 9)%Z as Ht.
  { rewrite Forall_lookup in Hall. exact (Hall p color Hp). }
  destruct (lookup_lt_is_Some_2 (headSamples chroma color ++ tailSamples chroma color) i)
    as [shade Hshade]; [rewrite ramp_length; lia|].
  exists (headSamples chroma color ++ tailSamples chroma color), shade.
  split; [apply getShades_Ok; lia|]. split; [exact Hshade|].
  rewrite (lookup_concat_uniform 10 _ p i (entry_lines chroma css color));
    [|exact Hlen| |exact Hi].
  - unfold entry_lines. rewrite list_lookup_imap, Hshade. reflexivity.
  - by rewrite list_lookup_fmap, Hp.
Qed.

End ExportFacts.

Lemma CssVariablesOutput_shape_witness :
  ∃ lines : list string,
    CssVariablesOutput sample_chroma sample_css DEFAULT_COLORS
    = Ok (":root {" +:+ nl +:+
          foldr (fun line rest => line +:+ nl +:+ rest) "}" lines) ∧
    length lines = 60%nat.
Proof.
  destruct (CssVariablesOutput_shape sample_chroma sample_css DEFAULT_COLORS)
    as (_ & lines & _ & E & _ & L & _).
  - repeat constructor; simpl; lia.
  - exists lines. split; [by apply E|exact L].
Defined.

(** ** The palette model *)

Lemma key_inj (k k' : ColorKey) : key k = key k' -> k = k'.
Proof. destruct k, k'; simpl; intros E; first [reflexivity | discriminate E]. Qed.

Lemma fresh_not_live (h : gmap positive jsarray) (l : positive) (a : jsarray) :
  h !! l = Some a -> fresh (dom h) ≠ l.
Proof.
  intros Hl E. apply (is_fresh (dom h)). rewrite E.
  apply elem_of_dom. by exists a.
Qed.

(** The state an update leaves: a new array, the copy of the old one with
    one assignment made to it, and the store otherwise as it was. *)
Lemma updateAttrForIndex_eq (st : state) (index : Z) (attr : ColorKey) (v : value)
    (a : jsarray) :
  store st !! palette st = Some a ->
  updateAttrForIndex st index attr v
  = Ok (mkState
          (<[fresh (dom (store st)) :=
               array_set (JSON_clone a) index
                 (<[key attr := v]> (spread (array_get (JSON_clone a) index)))]>
             (store st))
          (fresh (dom (store st)))).
Proof.
  intros Ha. unfold updateAttrForIndex, alloc, setPalette.
  rewrite (lookup_total_correct _ _ _ Ha).
  rewrite lookup_total_insert_eq, insert_insert_eq. reflexivity.
Qed.

(** An update never throws. *)
Lemma updateAttrForIndex_total (st : state) (index : Z) (attr : ColorKey) (v : value) :
  ∃ st' : state, updateAttrForIndex st index attr v = Ok st'.
Proof. unfold updateAttrForIndex, alloc. eexists. reflexivity. Qed.

Lemma array_get_clone_object (a : jsarray) (index : Z) (o : gmap string value) :
  is_array_index index ->
  elems a !! Z.to_nat index = Some (Object o) ->
  array_get (JSON_clone a) index = Some o.
Proof.
  intros Hidx Ho. unfold array_get. rewrite decide_True by exact Hidx.
  simpl. by rewrite list_lookup_fmap, Ho.
Qed.

Lemma array_get_clone_past_end (a : jsarray) (index : Z) :
  ¬ (0 <= index < Z.of_nat (length (elems a)))%Z ->
  array_get (JSON_clone a) index = None.
Proof.
  intros Hout. unfold array_get. destruct (decide (is_array_index index)) as [Hidx|Hidx].
  - simpl. rewrite list_lookup_fmap.
    rewrite lookup_ge_None_2; [reflexivity|].
    unfold is_array_index in Hidx. lia.
  - simpl. apply lookup_empty.
Qed.

Lemma JSON_elem_object (e : elem) : is_Object e -> JSON_elem e = e.
Proof. intros [o ->]. reflexivity. Qed.

Lemma JSON_clone_objects (a : jsarray) :
  Forall is_Object (elems a) -> elems (JSON_clone a) = elems a.
Proof.
  intros Hall. simpl. rewrite <- (list_fmap_id (elems a)) at 2.
  apply list_fmap_ext. intros i e He. apply JSON_elem_object.
  rewrite Forall_lookup in Hall. by apply (Hall i).
Qed.

(** An update inside a palette of objects, in closed form. *)
Lemma updateAttrForIndex_inside (st : state) (index : Z) (attr : ColorKey)
    (v : value) (a : jsarray) (o : gmap string value) :
  store st !! palette st = Some a ->
  Forall is_Object (elems a) ->
  is_array_index index ->
  elems a !! Z.to_nat index = Some (Object o) ->
  updateAttrForIndex st index attr v
  = Ok (mkState
          (<[fresh (dom (store st)) :=
               mkArray (<[Z.to_nat index := Object (<[key attr := v]> o)]> (elems a)) ∅]>
             (store st))
          (fresh (dom (store st)))).
Proof.
  intros Ha Hobj Hai He.
  rewrite (updateAttrForIndex_eq st index attr v a Ha).
  rewrite (array_get_clone_object a index o Hai He). simpl.
  unfold array_set. rewrite decide_True by exact Hai.
  rewrite (JSON_clone_objects a Hobj).
  rewrite decide_True by (by eapply lookup_lt_Some).
  reflexivity.
Qed.

Lemma lookup_object_inside (a : jsarray) (index : Z) :
  Forall is_Object (elems a) ->
  (0 <= index < Z.of_nat (length (elems a)))%Z ->
  ∃ o : gmap string value, elems a !! Z.to_nat index = Some (Object o).
Proof.
  intros Hobj Hidx.
  destruct (lookup_lt_is_Some_2 (elems a) (Z.to_nat index)) as [e He]; [lia|].
  rewrite Forall_lookup in Hobj. destruct (Hobj _ _ He) as [o ->]. by exists o.
Qed.

(** C6: on a palette of objects and an index inside it, an update returns
    a new palette of the same length in which the entry at the index has the
    named field set to the value and every other field as before, and every
    other entry is as before; the array of the old palette, and every array
    the store held, is untouched. *)
Theorem updateAttrForIndex_frame (st : state) (index : Z) (attr : ColorKey)
    (v : value) (a : jsarray) :
  store st !! palette st = Some a ->
  Forall is_Object (elems a) ->
  (Z.of_nat (length (elems a)) <= 2 ^ 32 - 1)%Z ->
  (0 <= index < Z.of_nat (length (elems a)))%Z ->
  ∃ (st' : state) (a' : jsarray) (o o' : gmap string value),
    updateAttrForIndex st index attr v = Ok st' ∧
    store st' !! palette st' = Some a' ∧
    elems a !! Z.to_nat index = Some (Object o) ∧
    elems a' !! Z.to_nat index = Some (Object o') ∧
    o' !! key attr = Some v ∧
    (∀ k : string, k ≠ key attr -> o' !! k = o !! k) ∧
    length (elems a') = length (elems a) ∧
    (∀ j : nat, j ≠ Z.to_nat index -> elems a' !! j = elems a !! j) ∧
    palette st' ≠ palette st ∧
    store st' !! palette st = Some a ∧
    (∀ l : positive, l ∈ dom (store st) -> store st' !! l = store st !! l).
Proof.
  intros Ha Hobj Hmax Hidx.
  assert (is_array_index index) as Hai by (unfold is_array_index; lia).
  destruct (lookup_object_inside a index Hobj Hidx) as [o He].
  pose proof (fresh_not_live _ _ _ Ha) as Hfresh.
  eexists _, _, o, (<[key attr := v]> o).
  split; [by apply updateAttrForIndex_inside|]. simpl.
  split; [apply lookup_insert_eq|]. simpl.
  split; [exact He|].
  split; [apply list_lookup_insert_eq; lia|].
  split; [apply lookup_insert_eq|].
  split; [intros k Hk; by apply lookup_insert_ne|].
  split; [apply length_insert|].
  split; [intros j Hj; by apply list_lookup_insert_ne|].
  split; [exact Hfresh|].
  split; [by rewrite lookup_insert_ne|].
  intros l Hl. apply lookup_insert_ne. intros E.
  apply (is_fresh (dom (store st))). by rewrite E.
Qed.

(** C5: an update at an index outside the palette does not fail, with
    IndexOutOfRange or otherwise.  At an array index past the end it returns
    a longer palette: the copy of the old entries, empty slots up to the
    index, and there an object with the named field alone.  Under any other
    key it returns the copy of the old entries, with that object as a
    property of the array.  The array of the old palette is untouched. *)
Theorem updateAttrForIndex_out_of_range (st : state) (index : Z) (attr : ColorKey)
    (v : value) (a : jsarray) :
  store st !! palette st = Some a ->
  ¬ (0 <= index < Z.of_nat (length (elems a)))%Z ->
  ∃ (st' : state) (a' : jsarray),
    updateAttrForIndex st index attr v = Ok st' ∧
    updateAttrForIndex st index attr v ≠ Err IndexOutOfRange ∧
    store st' !! palette st' = Some a' ∧
    (is_array_index index ->
       elems a' = (JSON_elem <$> elems a)
                    ++ replicate (Z.to_nat index - length (elems a)) Hole
                    ++ [Object {[ key attr := v ]}] ∧
       props a' = ∅) ∧
    (¬ is_array_index index ->
       elems a' = JSON_elem <$> elems a ∧
       props a' = {[ index := {[ key attr := v ]} ]}) ∧
    palette st' ≠ palette st ∧
    store st' !! palette st = Some a.
Proof.
  intros Ha Hout.
  pose proof (fresh_not_live _ _ _ Ha) as Hfresh.
  rewrite (updateAttrForIndex_eq st index attr v a Ha).
  rewrite (array_get_clone_past_end a index Hout). simpl.
  rewrite insert_empty.
  eexists _, _. split; [reflexivity|].
  split; [discriminate|]. simpl.
  split; [apply lookup_insert_eq|].
  unfold array_set.
  split; [|split; [|split]].
  - intros Hai. rewrite decide_True by exact Hai.
    rewrite decide_False.
    + simpl. by rewrite length_fmap.
    + simpl. rewrite length_fmap. unfold is_array_index in Hai. lia.
  - intros Hai. rewrite decide_False by exact Hai. simpl.
    by rewrite insert_empty.
  - exact Hfresh.
  - by rewrite lookup_insert_ne.
Qed.

(** ** The ratio inputs *)

Lemma or_default_nonzero (x : jsnumber) (d : R) : d ≠ 0 -> or_default x d ≠ 0.
Proof.
  intros Hd. destruct x as [|r]; simpl; [exact Hd|].
  destruct (decide (r = 0)); assumption.
Qed.

Lemma or_default_falsy (x : jsnumber) (d : R) :
  x = NaN ∨ x = Num 0 -> or_default x d = d.
Proof.
  intros [-> | ->]; simpl; [reflexivity|]. by rewrite decide_True.
Qed.

Lemma or_default_truthy (r d : R) : r ≠ 0 -> or_default (Num r) d = r.
Proof. intros Hr. simpl. by rewrite decide_False. Qed.

Lemma default_ratio_nonzero : 0.9 ≠ 0.
Proof. lra. Qed.

Lemma Number_empty : Number "" = Num 0.
Proof. reflexivity. Qed.

Lemma Number_zero : Number "0" = Num 0.
Proof.
  change (Number "0") with (Num (decimal false 0 (- 0))).
  f_equal. unfold decimal. simpl. lra.
Qed.

Lemma Number_not_numeric : Number "abc" = NaN.
Proof. reflexivity. Qed.

Lemma Number_half : Number "0.5" = Num 0.5.
Proof.
  change (Number "0.5") with (Num (decimal false 5 (- 1))).
  f_equal. unfold decimal. simpl. lra.
Qed.

(** What a ratio handler stores in the entry it edits. *)
Lemma ratio_stored (st : state) (i : Z) (attr : ColorKey) (r : R) (a : jsarray) :
  store st !! palette st = Some a ->
  Forall is_Object (elems a) ->
  (Z.of_nat (length (elems a)) <= 2 ^ 32 - 1)%Z ->
  (0 <= i < Z.of_nat (length (elems a)))%Z ->
  ∃ (st' : state) (a' : jsarray) (o' : gmap string value),
    updateAttrForIndex st i attr (VNum r) = Ok st' ∧
    store st' !! palette st' = Some a' ∧
    elems a' !! Z.to_nat i = Some (Object o') ∧
    o' !! key attr = Some (VNum r).
Proof.
  intros Ha Hobj Hmax Hi.
  destruct (lookup_object_inside a i Hobj Hi) as [o He].
  eexists _, _, _.
  split; [apply (updateAttrForIndex_inside st i attr (VNum r) a o); try assumption;
          unfold is_array_index; lia|].
  simpl. split; [apply lookup_insert_eq|]. simpl.
  split; [apply list_lookup_insert_eq; lia|].
  apply lookup_insert_eq.
Qed.

(** C10: the two ratio inputs fall back to 0.9 on every falsy number, not
    only on text that is no number: the text ["0"] and the empty text store
    0.9, and whatever the text, the ratio stored in the entry is not 0. *)
Theorem ratio_input_falsy_fallback (st : state) (i : Z) (text : string)
    (a : jsarray) :
  store st !! palette st = Some a ->
  Forall is_Object (elems a) ->
  (Z.of_nat (length (elems a)) <= 2 ^ 32 - 1)%Z ->
  (0 <= i < Z.of_nat (length (elems a)))%Z ->
  (Number text = NaN ∨ Number text = Num 0 -> or_default (Number text) 0.9 = 0.9) ∧
  or_default (Number "0") 0.9 = 0.9 ∧
  or_default (Number "") 0.9 = 0.9 ∧
  or_default (Number text) 0.9 ≠ 0 ∧
  (∃ (st' : state) (a' : jsarray) (o' : gmap string value),
     onChangeWhiteMixRatio st i text = Ok st' ∧
     store st' !! palette st' = Some a' ∧
     elems a' !! Z.to_nat i = Some (Object o') ∧
     o' !! "whiteMixRatio" = Some (VNum (or_default (Number text) 0.9)) ∧
     o' !! "whiteMixRatio" ≠ Some (VNum 0)) ∧
  (∃ (st' : state) (a' : jsarray) (o' : gmap string value),
     onChangeBlackMixRatio st i text = Ok st' ∧
     store st' !! palette st' = Some a' ∧
     elems a' !! Z.to_nat i = Some (Object o') ∧
     o' !! "blackMixRatio" = Some (VNum (or_default (Number text) 0.9)) ∧
     o' !! "blackMixRatio" ≠ Some (VNum 0)).
Proof.
  intros Ha Hobj Hmax Hi.
  pose proof (or_default_nonzero (Number text) 0.9 default_ratio_nonzero) as Hnz.
  split; [apply or_default_falsy|].
  split; [apply or_default_falsy; right; apply Number_zero|].
  split; [apply or_default_falsy; right; apply Number_empty|].
  split; [exact Hnz|].
  split.
  - destruct (ratio_stored st i KwhiteMixRatio (or_default (Number text) 0.9) a)
      as (st' & a' & o' & E & Ea & Eo & Ef); try assumption.
    exists st', a', o'. repeat split; try assumption.
    simpl in Ef. rewrite Ef. intros [= E0]. by apply Hnz.
  - destruct (ratio_stored st i KblackMixRatio (or_default (Number text) 0.9) a)
      as (st' & a' & o' & E & Ea & Eo & Ef); try assumption.
    exists st', a', o'. repeat split; try assumption.
    simpl in Ef. rewrite Ef. intros [= E0]. by apply Hnz.
Qed.

(** ** The palette on the default colours *)

Lemma App_init_palette :
  store App_init !! palette App_init = Some (Array_of DEFAULT_COLORS).
Proof. apply lookup_singleton_eq. Qed.

Lemma Array_of_objects (colors : list Color) : Forall is_Object (elems (Array_of colors)).
Proof.
  simpl. apply Forall_fmap, Forall_true. intros c. by eexists.
Qed.

Lemma length_Array_of (colors : list Color) :
  length (elems (Array_of colors)) = length colors.
Proof. simpl. apply length_fmap. Qed.

Lemma updateAttrForIndex_frame_witness :
  ∃ (st' : state) (a' : jsarray) (o' : gmap string value),
    setName App_init 0 "charcoal" = Ok st' ∧
    store st' !! palette st' = Some a' ∧
    elems a' !! 0%nat = Some (Object o') ∧
    o' !! "name" = Some (VStr "charcoal") ∧
    o' !! "hex" = Some (VStr "#302c2c") ∧
    elems a' !! 1%nat = Some (Object (Color_object (hue "yellow" "#ffdc40"))) ∧
    store st' !! palette App_init = Some (Array_of DEFAULT_COLORS).
Proof.
  destruct (updateAttrForIndex_frame App_init 0 Kname (VStr "charcoal")
              (Array_of DEFAULT_COLORS))
    as (st' & a' & o & o' & E & Ea & Eo & Eo' & Hname & Hother & _ & Hrest & _ & Hold & _).
  - apply App_init_palette.
  - apply Array_of_objects.
  - rewrite length_Array_of. simpl. lia.
  - rewrite length_Array_of. simpl. lia.
  - exists st', a', o'.
    split; [exact E|]. split; [exact Ea|]. split; [exact Eo'|].
    split; [exact Hname|].
    split; [rewrite Hother by discriminate; injection Eo as <-; reflexivity|].
    split; [rewrite Hrest by discriminate; reflexivity|].
    exact Hold.
Defined.

Lemma updateAttrForIndex_out_of_range_witness :
  ∃ (st' : state) (a' : jsarray),
    setName App_init 7 "charcoal" = Ok st' ∧
    store st' !! palette st' = Some a' ∧
    length (elems a') = 8%nat ∧
    elems a' !! 6%nat = Some Hole ∧
    elems a' !! 7%nat = Some (Object {[ "name" := VStr "charcoal" ]}).
Proof.
  destruct (updateAttrForIndex_out_of_range App_init 7 Kname (VStr "charcoal")
              (Array_of DEFAULT_COLORS))
    as (st' & a' & E & _ & Ea & Hin & _).
  - apply App_init_palette.
  - rewrite length_Array_of. simpl. lia.
  - destruct Hin as [Hel _]; [unfold is_array_index; lia|].
    exists st', a'. split; [exact E|]. split; [exact Ea|].
    rewrite Hel. repeat split.
Defined.

(** An update one past the end of the default palette returns normally. *)
Lemma update_past_end_succeeds :
  ¬ (0 <= 6 < Z.of_nat (length (elems (Array_of DEFAULT_COLORS))))%Z ∧
  ∃ st' : state, updateAttrForIndex App_init 6 Kname (VStr "charcoal") = Ok st'.
Proof.
  split.
  - rewrite length_Array_of. simpl. lia.
  - apply updateAttrForIndex_total.
Qed.

Lemma ratio_input_falsy_fallback_witness :
  ∃ (st' : state) (a' : jsarray) (o' : gmap string value),
    onChangeWhiteMixRatio App_init 2 "0" = Ok st' ∧
    store st' !! palette st' = Some a' ∧
    elems a' !! 2%nat = Some (Object o') ∧
    o' !! "whiteMixRatio" = Some (VNum 0.9).
Proof.
  destruct (ratio_input_falsy_fallback App_init 2 "0" (Array_of DEFAULT_COLORS))
    as (_ & H0 & _ & _ & (st' & a' & o' & E & Ea & Eo & Ef & _) & _).
  - apply App_init_palette.
  - apply Array_of_objects.
  - rewrite length_Array_of. simpl. lia.
  - rewrite length_Array_of. simpl. lia.
  - exists st', a', o'. rewrite H0 in Ef. repeat split; assumption.
Defined.

(** * Further properties *)

(** ** The shape of the easing functions *)

(** X1: on the unit interval each easing function never falls and takes
    its values in the unit interval. *)
Theorem SHADING_monotone (f : ShadingFunction) (x y : R) :
  0 <= x -> x <= y -> y <= 1 ->
  0 <= SHADING f x ∧ SHADING f x <= SHADING f y ∧ SHADING f y <= 1.
Proof.
  intros H0 Hxy H1.
  split; [apply SHADING_nonneg; lra|].
  split; [by apply SHADING_mono|].
  rewrite <- (SHADING_1 f). apply SHADING_mono; lra.
Qed.

Lemma SHADING_monotone_witness :
  SHADING easeInOut (1 / 4) <= SHADING easeInOut (3 / 4).
Proof. apply (SHADING_monotone easeInOut (1 / 4) (3 / 4)); lra. Defined.

Lemma easeIn_mirror (x : R) : SHADING easeIn x = 1 - SHADING easeOut (1 - x).
Proof.
  simpl. replace ((1 - x) * PI / 2) with (PI / 2 - x * PI / 2) by lra.
  by rewrite sin_shift.
Qed.

(** Jordan's inequality: on [0, PI/2] the sine is above its chord. *)
Lemma sin_above_chord (t : R) : 0 <= t -> t <= PI / 2 -> 2 / PI * t <= sin t.
Proof.
  intros H0 H1. pose proof PI_RGT_0 as Hpi.
  destruct (Rle_lt_dec (2 / PI * t) (sin t)) as [Hle|Hlt]; [exact Hle|exfalso].
  set (g := (sin - mult_real_fct (2 / PI) id)%F).
  set (g' := fun c : R => cos c - 2 / PI * 1).
  assert (forall c, derivable_pt_lim g c (g' c)) as Hder.
  { intros c. apply derivable_pt_lim_minus; [apply derivable_pt_lim_sin|].
    apply derivable_pt_lim_scal, derivable_pt_lim_id. }
  assert (forall c, g c = sin c - 2 / PI * c) as Hg by reflexivity.
  assert (0 < t) as Ht0.
  { destruct H0 as [H0 | <-]; [exact H0|]. rewrite sin_0 in Hlt. lra. }
  assert (t < PI / 2) as Ht1.
  { destruct H1 as [H1 | ->]; [exact H1|]. rewrite sin_PI2 in Hlt.
    replace (2 / PI * (PI / 2)) with 1 in Hlt by (field; lra). lra. }
  destruct (MVT_cor2 g g' 0 t Ht0) as (c1 & E1 & Hc1); [intros; apply Hder|].
  destruct (MVT_cor2 g g' t (PI / 2) Ht1) as (c2 & E2 & Hc2); [intros; apply Hder|].
  rewrite !Hg in E1, E2. rewrite sin_0 in E1. rewrite sin_PI2 in E2.
  replace (2 / PI * (PI / 2)) with 1 in E2 by (field; lra).
  unfold g' in E1, E2.
  assert (cos c2 < cos c1) as Hcos by (apply cos_decreasing_1; lra).
  assert ((cos c1 - 2 / PI * 1) * (t - 0) < 0) as N1 by lra.
  assert (0 < (cos c2 - 2 / PI * 1) * (PI / 2 - t)) as N2 by lra.
  assert (cos c1 - 2 / PI * 1 < 0) as D1 by nra.
  assert (0 < cos c2 - 2 / PI * 1) as D2 by nra.
  lra.
Qed.

(** X3: on the unit interval ease-in stays below the linear ramp and
    ease-out above it. *)
Theorem SHADING_ease_order (x : R) :
  0 <= x -> x <= 1 ->
  SHADING easeIn x <= SHADING linear x ∧ SHADING linear x <= SHADING easeOut x.
Proof.
  intros H0 H1. pose proof PI_RGT_0 as Hpi.
  assert (forall z, 0 <= z -> z <= 1 -> z <= SHADING easeOut z) as Hout.
  { intros z Hz0 Hz1. simpl.
    replace z with (2 / PI * (z * PI / 2)) at 1 by (field; lra).
    apply sin_above_chord; nra. }
  split.
  - rewrite easeIn_mirror.
    specialize (Hout (1 - x)). simpl in *. lra.
  - by apply Hout.
Qed.

Lemma SHADING_ease_order_witness :
  SHADING easeIn (1 / 2) <= SHADING linear (1 / 2) ∧
  SHADING linear (1 / 2) <= SHADING easeOut (1 / 2).
Proof. apply (SHADING_ease_order (1 / 2)); lra. Defined.

(** ** The outcomes of the generator *)

Section GeneratorOutcomes.

Variable chroma : string -> Lab.

Lemma getShades_RangeError (c : Color) :
  ¬ (-1 <= targetIndex c <= 9)%Z -> getShades chroma c = Err RangeError.
Proof.
  intros Ht. destruct (getShades_outcome chroma c) as [[ramp E]|E]; [|exact E].
  exfalso. revert E. unfold getShades. cbv zeta.
  destruct (decide (0 <= targetIndex c + 1 < 2 ^ 32)%Z) as [Hn|Hn].
  - rewrite (Array_keys_Ok (targetIndex c + 1)) by exact Hn.
    rewrite (Array_keys_Err (10 - (targetIndex c + 1))) by lia. simpl.
    rewrite (mapM_Ok _ (headSample chroma c) (seqZ 0 (targetIndex c + 1)));
      [discriminate|].
    intros i Hi. apply elem_of_seqZ in Hi.
    rewrite js_div_Ok by lia. reflexivity.
  - rewrite (Array_keys_Err (targetIndex c + 1)) by exact Hn. discriminate.
Qed.

(** X4: whenever the generator returns, the target index is between -1
    and 9 and the ramp has 10 colours; and it never takes a quotient by zero,
    the two divisors being 0 only when there is nothing to divide. *)
Theorem getShades_outcomes (c : Color) :
  (∀ ramp : list Lab,
     getShades chroma c = Ok ramp ->
     (-1 <= targetIndex c <= 9)%Z ∧ length ramp = 10%nat) ∧
  getShades chroma c ≠ Err NotFinite.
Proof.
  split; [|apply getShades_no_quotient_by_zero].
  intros ramp E.
  destruct (decide (-1 <= targetIndex c <= 9)%Z) as [Ht|Ht].
  - split; [exact Ht|]. rewrite getShades_Ok in E by exact Ht.
    apply Ok_inj in E. subst ramp. by apply ramp_length.
  - rewrite getShades_RangeError in E by exact Ht. discriminate.
Qed.

(** X5: the inputs the generator does not read.  With target index 9
    there is no tail and the black ratio has no effect; with target index -1
    there is no head, the ramp is the 10 tail samples, and neither the white
    ratio nor the shading function has an effect. *)
Theorem getShades_unused_inputs (c : Color) (r : R) (f : ShadingFunction) :
  (targetIndex c = 9%Z ->
   getShades chroma (with_blackMixRatio c r) = getShades chroma c) ∧
  (targetIndex c = (-1)%Z ->
   getShades chroma c = Ok (tailSamples chroma c) ∧
   length (tailSamples chroma c) = 10%nat ∧
   getShades chroma
     (mkColor (name c) (hex c) (targetIndex c) f r (blackMixRatio c))
   = getShades chroma c).
Proof.
  split; intros Ht.
  - rewrite !getShades_Ok by (simpl; lia).
    unfold tailSamples, tailLength. simpl. rewrite Ht. reflexivity.
  - assert (forall c', targetIndex c' = (-1)%Z ->
              getShades chroma c' = Ok (tailSamples chroma c')) as Htail.
    { intros c' Ht'. rewrite getShades_Ok by lia.
      unfold headSamples, headLength. rewrite Ht'. reflexivity. }
    split; [by apply Htail|].
    split; [rewrite length_tailSamples, Ht; reflexivity|].
    rewrite !Htail by (simpl; lia). reflexivity.
Qed.

(** X6: whatever the easing function, the first entry of the ramp is the
    lightest endpoint, every easing function being 0 at 0. *)
Theorem getShades_first_entry (c : Color) :
  (0 <= targetIndex c <= 9)%Z ->
  ∃ ramp : list Lab,
    getShades chroma c = Ok ramp ∧
    ramp !! 0%nat = Some (mix (chroma (hex c)) (chroma "#fff") (whiteMixRatio c)).
Proof.
  intros Ht. eexists. split; [apply getShades_Ok; lia|].
  apply ramp_first. lia.
Qed.

(** X7: with both ratios 0 the two endpoints are the seed and the ramp is
    the seed colour 10 times. *)
Theorem getShades_degenerate (c : Color) :
  (0 <= targetIndex c <= 9)%Z ->
  whiteMixRatio c = 0 -> blackMixRatio c = 0 ->
  getShades chroma c = Ok (replicate 10 (chroma (hex c))).
Proof.
  intros Ht Hw Hb. rewrite getShades_Ok by lia. f_equal.
  apply list_eq_same_length with 10%nat.
  - apply length_replicate.
  - apply ramp_length. lia.
  - intros i x y Hi Hx Hy.
    rewrite lookup_replicate in Hy. destruct Hy as [-> _].
    apply list_elem_of_lookup_2 in Hx. apply elem_of_app in Hx as [Hx|Hx].
    + unfold headSamples in Hx. apply list_elem_of_fmap in Hx as (k & -> & _).
      unfold headSample. rewrite light_ratio_0 by exact Hw. apply mix_same.
    + unfold tailSamples in Hx. apply list_elem_of_fmap in Hx as (k & -> & _).
      unfold tailSample. rewrite dark_ratio_0 by exact Hb. apply mix_same.
Qed.

End GeneratorOutcomes.

Lemma getShades_unused_inputs_witness :
  getShades sample_chroma (with_blackMixRatio (grey 9 easeOut 0.9 0.85) 0.1)
  = getShades sample_chroma (grey 9 easeOut 0.9 0.85) ∧
  getShades sample_chroma (grey (-1) easeOut 0.9 0.85)
  = Ok (tailSamples sample_chroma (grey (-1) easeOut 0.9 0.85)).
Proof.
  split.
  - apply (getShades_unused_inputs sample_chroma (grey 9 easeOut 0.9 0.85) 0.1 linear).
    reflexivity.
  - apply (getShades_unused_inputs sample_chroma (grey (-1) easeOut 0.9 0.85) 0 linear).
    reflexivity.
Defined.

Lemma getShades_first_entry_witness :
  ∃ ramp : list Lab,
    getShades sample_chroma red = Ok ramp ∧
    ramp !! 0%nat = Some (mix (sample_chroma "#e4593e") (sample_chroma "#fff") 0.9).
Proof. apply (getShades_first_entry sample_chroma red). simpl. lia. Defined.

Lemma getShades_degenerate_witness :
  getShades sample_chroma (grey 5 easeIn 0 0)
  = Ok (replicate 10 (sample_chroma "#777777")).
Proof.
  apply (getShades_degenerate sample_chroma (grey 5 easeIn 0 0)).
  - simpl. lia.
  - reflexivity.
  - reflexivity.
Defined.

(** ** Lightness along the ramp *)

Section Lightness.

Variable chroma : string -> Lab.

Lemma lookup_headSamples_inv (c : Color) (i : nat) (x : Lab) :
  headSamples chroma c !! i = Some x ->
  (Z.of_nat i <= targetIndex c)%Z ∧ x = headSample chroma c (Z.of_nat i).
Proof.
  unfold headSamples. rewrite list_lookup_fmap. intros E.
  apply fmap_Some in E as (k & Hk & ->). apply lookup_seqZ in Hk as [-> Hlt].
  unfold headLength in Hlt. split; [lia|]. f_equal.
Qed.

Lemma lookup_tailSamples_inv (c : Color) (k : nat) (x : Lab) :
  tailSamples chroma c !! k = Some x ->
  (Z.of_nat k + 1 <= 9 - targetIndex c)%Z ∧
  x = tailSample chroma c (Z.of_nat k + 1).
Proof.
  unfold tailSamples. rewrite list_lookup_fmap. intros E.
  apply fmap_Some in E as (j & Hj & ->). apply lookup_seqZ in Hj as [-> Hlt].
  unfold tailLength in Hlt. split; [lia|]. f_equal. lia.
Qed.

Lemma lab_l_scale (a b : Lab) (t : R) :
  lab_l (scale a b t) = lab_l a + t * (lab_l b - lab_l a).
Proof. reflexivity. Qed.

Lemma light_above_seed (c : Color) :
  0 <= whiteMixRatio c -> lab_l (chroma (hex c)) <= lab_l (chroma "#fff") ->
  lab_l (chroma (hex c)) <= lab_l (light chroma c).
Proof. intros Hw Hl. unfold light, seedLab, WHITE, mix, lerp. simpl. nra. Qed.

Lemma dark_below_seed (c : Color) :
  0 <= blackMixRatio c -> lab_l (chroma "#000") <= lab_l (chroma (hex c)) ->
  lab_l (dark chroma c) <= lab_l (chroma (hex c)).
Proof. intros Hb Hl. unfold dark, seedLab, BLACK, mix, lerp. simpl. nra. Qed.

(** Lightness of the head: between the seed and the lightest endpoint,
    falling with the index. *)
Lemma head_lightness (c : Color) (i j : Z) :
  (0 <= i)%Z -> (i <= j)%Z -> (j <= targetIndex c)%Z ->
  lab_l (chroma (hex c)) <= lab_l (light chroma c) ->
  lab_l (chroma (hex c)) <= lab_l (headSample chroma c j) ∧
  lab_l (headSample chroma c j) <= lab_l (headSample chroma c i).
Proof.
  intros Hi Hij Hj Hl. unfold headSample, headLength, seedLab.
  rewrite !lab_l_scale.
  destruct (quotient_unit i (targetIndex c + 1)) as [Hi0 Hi1]; [lia|].
  destruct (quotient_unit j (targetIndex c + 1)) as [Hj0 Hj1]; [lia|].
  pose proof (quotient_le i j (targetIndex c + 1) Hij ltac:(lia)) as Hq.
  pose proof (SHADING_mono (shadingFunction c) _ _ Hi0 Hq ltac:(lra)) as Hm.
  pose proof (SHADING_lt_1 (shadingFunction c) _ Hj0 Hj1) as H1.
  split; nra.
Qed.

(** Lightness of the tail: between the darkest endpoint and the seed,
    falling with the index. *)
Lemma tail_lightness (c : Color) (i j : Z) :
  (1 <= i)%Z -> (i <= j)%Z -> (j <= 9 - targetIndex c)%Z ->
  lab_l (dark chroma c) <= lab_l (chroma (hex c)) ->
  lab_l (tailSample chroma c i) <= lab_l (chroma (hex c)) ∧
  lab_l (tailSample chroma c j) <= lab_l (tailSample chroma c i).
Proof.
  intros Hi Hij Hj Hd. unfold tailSample, tailLength, seedLab.
  rewrite !lab_l_scale.
  destruct (quotient_pos i (9 - targetIndex c)) as [Hi0 Hi1]; [lia|].
  pose proof (quotient_le i j (9 - targetIndex c) Hij ltac:(lia)) as Hq.
  split; nra.
Qed.

(** X8: when the seed is no lighter than white and no darker than black,
    and the two ratios are in [0, 1], the LAB lightness never rises along
    the ramp. *)
Theorem getShades_lightness_falls (c : Color) :
  (0 <= targetIndex c <= 9)%Z ->
  0 <= whiteMixRatio c <= 1 -> 0 <= blackMixRatio c <= 1 ->
  lab_l (chroma "#000") <= lab_l (chroma (hex c)) ->
  lab_l (chroma (hex c)) <= lab_l (chroma "#fff") ->
  ∃ ramp : list Lab,
    getShades chroma c = Ok ramp ∧
    ∀ (i j : nat) (x y : Lab),
      (i <= j)%nat -> ramp !! i = Some x -> ramp !! j = Some y ->
      lab_l y <= lab_l x.
Proof.
  intros Ht [Hw _] [Hb _] Hblack Hwhite.
  pose proof (light_above_seed c Hw Hwhite) as Hl.
  pose proof (dark_below_seed c Hb Hblack) as Hd.
  eexists. split; [apply getShades_Ok; lia|].
  intros i j x y Hij Hx Hy.
  apply lookup_app_Some in Hx as [Hx|[Hi Hx]];
    apply lookup_app_Some in Hy as [Hy|[Hj Hy]].
  - apply lookup_headSamples_inv in Hx as [Hi ->].
    apply lookup_headSamples_inv in Hy as [Hj ->].
    apply head_lightness; try assumption; lia.
  - apply lookup_headSamples_inv in Hx as [Hi ->].
    apply lookup_tailSamples_inv in Hy as [Hk ->].
    transitivity (lab_l (chroma (hex c))).
    + apply (tail_lightness c (Z.of_nat (j - length (headSamples chroma c)) + 1)
               (Z.of_nat (j - length (headSamples chroma c)) + 1));
        try assumption; lia.
    + apply (head_lightness c (Z.of_nat i) (Z.of_nat i)); try assumption; lia.
  - apply lookup_lt_Some in Hy. lia.
  - apply lookup_tailSamples_inv in Hx as [Hk ->].
    apply lookup_tailSamples_inv in Hy as [Hk' ->].
    apply tail_lightness; try assumption; lia.
Qed.

End Lightness.

Lemma getShades_lightness_falls_witness :
  ∃ ramp : list Lab,
    getShades sample_chroma red = Ok ramp ∧
    ∀ x y : Lab, ramp !! 2%nat = Some x -> ramp !! 7%nat = Some y ->
                 lab_l y <= lab_l x.
Proof.
  destruct (getShades_lightness_falls sample_chroma red) as (ramp & E & H).
  - simpl. lia.
  - simpl. lra.
  - simpl. lra.
  - simpl. sample_colours. simpl. lra.
  - simpl. sample_colours. simpl. lra.
  - exists ramp. split; [exact E|]. intros x y. apply H. lia.
Defined.

(** ** Strings *)

Lemma string_length_app (s1 s2 : string) :
  String.length (s1 +:+ s2) = (String.length s1 + String.length s2)%nat.
Proof.
  induction s1 as [|a s1 IH]; [reflexivity|].
  rewrite string_app_cons. simpl. by f_equal.
Qed.

(** Two texts with suffixes of one length are equal part by part. *)
Lemma string_app_inj_suffix (s1 s2 t1 t2 : string) :
  String.length t1 = String.length t2 ->
  s1 +:+ t1 = s2 +:+ t2 -> s1 = s2 ∧ t1 = t2.
Proof.
  intros Hlen. revert s2. induction s1 as [|a s1 IH]; intros [|b s2] E;
    rewrite ?string_app_cons, ?string_app_nil_l in E.
  - by split.
  - apply (f_equal String.length) in E. simpl in E.
    rewrite string_length_app in E. lia.
  - apply (f_equal String.length) in E. simpl in E.
    rewrite string_length_app in E. lia.
  - injection E as -> E. destruct (IH s2 E) as [-> ->]. by split.
Qed.

Lemma rev_app_acc (s acc : string) :
  String.rev_app s acc = String.rev_app s "" +:+ acc.
Proof.
  revert acc. induction s as [|a s IH]; intros acc; simpl; [reflexivity|].
  rewrite (IH (String a acc)), (IH (String a "")).
  by rewrite string_app_assoc.
Qed.

Lemma rev_cons (a : ascii) (s : string) :
  String.rev (String a s) = String.rev s +:+ String a "".
Proof. unfold String.rev. simpl. apply rev_app_acc. Qed.

Lemma rev_app_snoc (s : string) (b : ascii) (acc : string) :
  String.rev_app (s +:+ String b "") acc = String b (String.rev_app s acc).
Proof.
  revert acc. induction s as [|a s IH]; intros acc; [reflexivity|].
  rewrite string_app_cons. simpl. apply IH.
Qed.

Lemma rev_snoc (s : string) (b : ascii) :
  String.rev (s +:+ String b "") = String b (String.rev s).
Proof. apply rev_app_snoc. Qed.

Lemma rev_involutive (s : string) : String.rev (String.rev s) = s.
Proof.
  induction s as [|a s IH]; [reflexivity|].
  by rewrite rev_cons, rev_snoc, IH.
Qed.

(** [trim] leaves alone a text that neither starts nor ends with white
    space, and strips a white space in front. *)
Lemma trim_clean (a b : ascii) (t : string) :
  is_space a = false -> is_space b = false ->
  trim (String a (t +:+ String b "")) = String a (t +:+ String b "").
Proof.
  intros Ha Hb. unfold trim. simpl ltrim at 2. rewrite Ha.
  rewrite <- string_app_cons, rev_snoc. simpl ltrim. rewrite Hb.
  rewrite <- rev_snoc. apply rev_involutive.
Qed.

Lemma trim_leading (c : ascii) (s : string) :
  is_space c = true -> trim (String c s) = trim s.
Proof. intros Hc. unfold trim. simpl ltrim at 2. by rewrite Hc. Qed.

(** ** The label of a shade *)

Section Label.

Variable hsl : Lab -> jsnumber * jsnumber * jsnumber.
Variable toFixed : jsnumber -> nat -> string.

(** X10: the label of a shade is the three lines of the template, the
    second and third indented by four spaces: of the white space in the
    template [trim] takes the leading line break and nothing else, whatever
    the three numbers print as. *)
Theorem formatHslStr_lines (color : Lab) :
  formatHslStr hsl toFixed color
  = "hsl(" +:+ toFixed (hsl color).1.1 2 +:+ nl +:+
    "    " +:+ toFixed (hsl color).1.2 2 +:+ "%" +:+ nl +:+
    "    " +:+ toFixed (hsl color).2 2 +:+ "%)".
Proof.
  unfold formatHslStr. destruct (hsl color) as [[h s] l]. simpl fst. simpl snd.
  unfold nl at 1. rewrite string_app_cons, string_app_nil_l.
  rewrite trim_leading by reflexivity.
  set (H := toFixed h 2). set (S := toFixed s 2). set (L := toFixed l 2).
  assert ("hsl(" +:+ H +:+ nl +:+ "    " +:+ S +:+ "%" +:+ nl +:+ "    " +:+ L +:+ "%)"
          = String "h" (("sl(" +:+ H +:+ nl +:+ "    " +:+ S +:+ "%" +:+ nl +:+
                         "    " +:+ L +:+ "%") +:+ String ")" "")) as ->.
  { rewrite !string_app_assoc. reflexivity. }
  apply trim_clean; reflexivity.
Qed.

End Label.

(** ** The swatches *)

Lemma mapM_Err {A B} (f : A -> result B) (e : error) (l : list A) :
  Forall (fun x => (∃ y, f x = Ok y) ∨ f x = Err e) l ->
  Exists (fun x => f x = Err e) l ->
  mapM f l = Err e.
Proof.
  induction 1 as [|x l Hx Hl IH]; intros Hex.
  - by apply Exists_nil in Hex.
  - simpl. destruct Hx as [[y Hy]|Hx].
    + rewrite Hy. simpl. rewrite IH; [reflexivity|].
      apply Exists_cons in Hex as [Hex|Hex]; [congruence|exact Hex].
    + by rewrite Hx.
Qed.

Lemma list_at_0 {A} (l : list A) : list_at l 0 = l !! 0%nat.
Proof. reflexivity. Qed.

Lemma list_at_last {A} (l : list A) : list_at l (Z.of_nat (length l) - 1) = last l.
Proof.
  unfold list_at. destruct l as [|x l]; [reflexivity|].
  rewrite decide_True by (simpl; lia). rewrite last_lookup. f_equal.
  simpl. lia.
Qed.

Lemma Rdiv_ge_cross (a b c d : R) :
  0 < b -> 0 < d -> (c / d <= a / b <-> c * b <= a * d).
Proof.
  intros Hb Hd.
  assert (c / d * (b * d) = c * b) as E1 by (field; lra).
  assert (a / b * (b * d) = a * d) as E2 by (field; lra).
  assert (0 < b * d) as Hbd by nra.
  split; intros H.
  - rewrite <- E1, <- E2. apply Rmult_le_compat_r; lra.
  - apply Rmult_le_reg_r with (b * d); [exact Hbd|]. lra.
Qed.

Section ShadesFacts.

Variable css : Lab -> string.
Variable luminance : Lab -> R.
Variable hsl : Lab -> jsnumber * jsnumber * jsnumber.
Variable toFixed : jsnumber -> nat -> string.

Lemma contrast_self (a : Lab) : 0 <= luminance a -> contrast luminance a a = 1.
Proof.
  intros Ha. unfold contrast. destruct (Rgt_dec _ _); field; lra.
Qed.

Lemma contrast_ge_1 (a b : Lab) :
  0 <= luminance a -> 0 <= luminance b -> 1 <= contrast luminance a b.
Proof.
  intros Ha Hb. unfold contrast.
  replace 1 with (1 / 1) by lra.
  destruct (Rgt_dec _ _); apply Rdiv_ge_cross; lra.
Qed.

(** The blocks of a swatch that has a first and a last colour. *)
Lemma Shades_Ok (colors : list Lab) (b d : Lab) :
  colors !! 0%nat = Some b -> last colors = Some d ->
  Shades css luminance hsl toFixed colors
  = Ok ((fun color =>
           mkShade (css color)
             (css (if Rge_dec (contrast luminance b color)
                              (contrast luminance d color) then b else d))
             (formatHslStr hsl toFixed color)) <$> colors).
Proof.
  intros Hb Hd. unfold Shades.
  rewrite list_at_0, list_at_last, Hb, Hd.
  apply mapM_Ok. intros color _. reflexivity.
Qed.

(** X11: a swatch never throws, the empty one included, and has one block
    per colour, in order, with the colour as its background; when no
    luminance is negative the text of the last block is in the first
    colour. *)
Theorem Shades_blocks (colors : list Lab) :
  ∃ views : list shade,
    Shades css luminance hsl toFixed colors = Ok views ∧
    length views = length colors ∧
    (∀ (k : nat) (color : Lab),
       colors !! k = Some color ->
       ∃ v : shade, views !! k = Some v ∧ background v = css color) ∧
    (Forall (fun c => 0 <= luminance c) colors ->
     ∀ (b : Lab) (v : shade),
       colors !! 0%nat = Some b ->
       views !! (length colors - 1)%nat = Some v ->
       fontColor v = css b).
Proof.
  destruct colors as [|b rest].
  { exists []. split; [reflexivity|]. split; [reflexivity|].
    split; intros; by rewrite ?lookup_nil in *. }
  destruct (last (b :: rest)) as [d|] eqn:Hd; [|by apply last_None in Hd].
  eexists. split; [by apply Shades_Ok|].
  split; [apply length_fmap|]. split.
  - intros k color Hk. rewrite list_lookup_fmap, Hk. simpl. by eexists.
  - intros Hlum b' v [= <-] Hv.
    rewrite list_lookup_fmap in Hv. rewrite last_lookup in Hd.
    replace (length (b :: rest) - 1)%nat with (pred (length (b :: rest))) in Hv by lia.
    rewrite Hd in Hv. injection Hv as <-. simpl.
    rewrite Forall_forall in Hlum.
    assert (0 <= luminance b) as Hb0 by (apply Hlum; left).
    assert (0 <= luminance d) as Hd0.
    { apply Hlum. by apply list_elem_of_lookup_2 in Hd. }
    destruct (Rge_dec _ _) as [|Hn]; [reflexivity|].
    exfalso. apply Hn. rewrite contrast_self by exact Hd0.
    apply Rle_ge. by apply contrast_ge_1.
Qed.

(** X12: a shade whose luminance lies between those of the last and of the
    first colour has its text in the first colour when its luminance plus
    0.05 is at most the geometric mean of theirs plus 0.05, and in the last
    colour when it is above. *)
Theorem Shades_fontColor (colors : list Lab) (k : nat) (color b d : Lab) :
  colors !! 0%nat = Some b -> last colors = Some d ->
  colors !! k = Some color ->
  0 <= luminance d ->
  luminance d <= luminance color -> luminance color <= luminance b ->
  ∃ (views : list shade) (v : shade),
    Shades css luminance hsl toFixed colors = Ok views ∧
    views !! k = Some v ∧
    ((luminance color + 0.05) ^ 2
       <= (luminance b + 0.05) * (luminance d + 0.05) ->
     fontColor v = css b) ∧
    ((luminance b + 0.05) * (luminance d + 0.05)
       < (luminance color + 0.05) ^ 2 ->
     fontColor v = css d).
Proof.
  intros Hb Hd Hk Hd0 Hdc Hcb.
  eexists _, _. split; [by apply Shades_Ok|].
  split; [by rewrite list_lookup_fmap, Hk|]. simpl.
  assert (contrast luminance b color
          = (luminance b + 0.05) / (luminance color + 0.05)) as ->.
  { unfold contrast. destruct (Rgt_dec _ _) as [|Hn]; [reflexivity|].
    assert (luminance b = luminance color) as -> by lra. reflexivity. }
  assert (contrast luminance d color
          = (luminance color + 0.05) / (luminance d + 0.05)) as ->.
  { unfold contrast. destruct (Rgt_dec _ _) as [Hgt|]; [lra|reflexivity]. }
  split; intros Hcmp; destruct (Rge_dec _ _) as [Hge|Hn]; try reflexivity.
  - exfalso. apply Hn, Rle_ge. clear Hn. apply Rdiv_ge_cross; lra.
  - exfalso. apply Rge_le in Hge.
    assert (0 < luminance color + 0.05) as Hc by lra.
    assert (0 < luminance d + 0.05) as Hd' by lra.
    pose proof (proj1 (Rdiv_ge_cross _ _ _ _ Hc Hd') Hge). lra.
Qed.

End ShadesFacts.

Lemma Shades_blocks_witness :
  ∃ views : list shade,
    Shades sample_css sample_luminance sample_hsl sample_toFixed three_greys
    = Ok views ∧
    ∀ v : shade, views !! 2%nat = Some v -> fontColor v = sample_css (mkLab 90 0 0).
Proof.
  destruct (Shades_blocks sample_css sample_luminance sample_hsl sample_toFixed
              three_greys) as (views & E & _ & _ & H).
  exists views. split; [exact E|]. intros v Hv. apply H; [|reflexivity|exact Hv].
  unfold three_greys, sample_luminance. repeat constructor; simpl; lra.
Defined.

Lemma Shades_fontColor_witness :
  ∃ (views : list shade) (v : shade),
    Shades sample_css sample_luminance sample_hsl sample_toFixed three_greys
    = Ok views ∧
    views !! 1%nat = Some v.
Proof.
  destruct (Shades_fontColor sample_css sample_luminance sample_hsl sample_toFixed
              three_greys 1 (mkLab 50 0 0) (mkLab 90 0 0) (mkLab 10 0 0))
    as (views & v & E & Hv & _); try reflexivity.
  - unfold sample_luminance. simpl. lra.
  - unfold sample_luminance. simpl. lra.
  - unfold sample_luminance. simpl. lra.
  - exists views, v. split; assumption.
Defined.

(** ** Palettes that do and do not render *)

Section Rendering.

Variable chroma : string -> Lab.
Variable css : Lab -> string.
Variable luminance : Lab -> R.
Variable hsl : Lab -> jsnumber * jsnumber * jsnumber.
Variable toFixed : jsnumber -> nat -> string.

Lemma Shades_total (colors : list Lab) :
  ∃ views : list shade,
    Shades css luminance hsl toFixed colors = Ok views ∧
    length views = length colors.
Proof.
  destruct colors as [|b rest]; [by exists []|].
  destruct (last (b :: rest)) as [d|] eqn:Hd; [|by apply last_None in Hd].
  eexists. split; [by apply Shades_Ok|]. apply length_fmap.
Qed.

Lemma render_Err {B} (f : Color -> result B) (colors : list Color) :
  (∀ c, ¬ (-1 <= targetIndex c <= 9)%Z -> f c = Err RangeError) ->
  (∀ c, (-1 <= targetIndex c <= 9)%Z -> ∃ y, f c = Ok y) ->
  Exists (fun c => ¬ (-1 <= targetIndex c <= 9)%Z) colors ->
  mapM f colors = Err RangeError.
Proof.
  intros Herr Hok Hex. apply mapM_Err.
  - apply Forall_forall. intros c _.
    destruct (decide (-1 <= targetIndex c <= 9)%Z) as [Ht|Ht]; [left|right]; auto.
  - eapply Exists_impl; [exact Hex|]. intros c Ht. by apply Herr.
Qed.

Lemma render_Ok {B} (f : Color -> result B) (colors : list Color) :
  (∀ c, (-1 <= targetIndex c <= 9)%Z -> ∃ y, f c = Ok y) ->
  Forall (fun c => (-1 <= targetIndex c <= 9)%Z) colors ->
  ∃ ys, mapM f colors = Ok ys ∧ Forall2 (fun c y => f c = Ok y) colors ys.
Proof.
  intros Hok. induction 1 as [|c colors Hc _ (ys & E & H2)].
  - exists []. by split.
  - destruct (Hok c Hc) as [y Hy]. exists (y :: ys). simpl.
    rewrite Hy. simpl. rewrite E. split; [reflexivity|by constructor].
Qed.

Lemma in_range_or_not (colors : list Color) :
  Forall (fun c => (-1 <= targetIndex c <= 9)%Z) colors ∨
  Exists (fun c => ¬ (-1 <= targetIndex c <= 9)%Z) colors.
Proof.
  destruct (decide (Forall (fun c => (-1 <= targetIndex c <= 9)%Z) colors))
    as [H|H]; [by left|right].
  apply not_Forall_Exists in H; [exact H|intros c; apply _].
Qed.

Lemma CssVariablesOutput_Err (colors : list Color) :
  Exists (fun c => ¬ (-1 <= targetIndex c <= 9)%Z) colors ->
  CssVariablesOutput chroma css colors = Err RangeError.
Proof.
  intros H. unfold CssVariablesOutput.
  rewrite (render_Err _ colors); [reflexivity| | |exact H].
  - intros c Ht. by rewrite getShades_RangeError.
  - intros c Ht. rewrite getShades_Ok by exact Ht. by eexists.
Qed.

Lemma Swatches_step (c : Color) :
  (-1 <= targetIndex c <= 9)%Z ->
  ∃ y : list shade,
    (shades ← getShades chroma c; Shades css luminance hsl toFixed shades) = Ok y ∧
    length y = 10%nat.
Proof.
  intros Ht. rewrite getShades_Ok by exact Ht. simpl.
  destruct (Shades_total (headSamples chroma c ++ tailSamples chroma c))
    as (views & E & L).
  exists views. split; [exact E|]. rewrite L. by apply ramp_length.
Qed.

Lemma Swatches_in_range (colors : list Color) :
  Forall (fun c => (-1 <= targetIndex c <= 9)%Z) colors ->
  ∃ swatches : list (list shade),
    Swatches chroma css luminance hsl toFixed colors = Ok swatches ∧
    length swatches = length colors ∧
    Forall (fun blocks => length blocks = 10%nat) swatches.
Proof.
  intros H.
  assert (∀ c, (-1 <= targetIndex c <= 9)%Z ->
            ∃ y, (shades ← getShades chroma c;
                  Shades css luminance hsl toFixed shades) = Ok y) as Hok.
  { intros c Ht. destruct (Swatches_step c Ht) as (y & Ey & _). by exists y. }
  destruct (render_Ok _ colors Hok H) as (ys & E & H2).
  exists ys. split; [exact E|]. split.
  - symmetry. by eapply Forall2_length.
  - apply Forall_forall. intros y Hy.
    apply list_elem_of_lookup in Hy as [i Hi].
    destruct (Forall2_lookup_r _ _ _ _ _ H2 Hi) as (c & Hc & Ey).
    rewrite Forall_lookup in H.
    destruct (Swatches_step c (H i c Hc)) as (y' & Ey' & Ly).
    rewrite Ey in Ey'. by injection Ey' as ->.
Qed.

Lemma Swatches_Err (colors : list Color) :
  Exists (fun c => ¬ (-1 <= targetIndex c <= 9)%Z) colors ->
  Swatches chroma css luminance hsl toFixed colors = Err RangeError.
Proof.
  intros H. unfold Swatches. apply render_Err; [| |exact H].
  - intros c Ht. by rewrite getShades_RangeError.
  - intros c Ht. destruct (Swatches_step c Ht) as (y & ? & _). eauto.
Qed.

(** X13: the export returns a text only when every entry has a target
    index between -1 and 9: one entry outside is enough to lose the whole
    text. *)
Theorem CssVariablesOutput_outcomes (colors : list Color) :
  (∀ text : string,
     CssVariablesOutput chroma css colors = Ok text ->
     Forall (fun c => (-1 <= targetIndex c <= 9)%Z) colors) ∧
  (Exists (fun c => ¬ (-1 <= targetIndex c <= 9)%Z) colors ->
   ∀ text : string, CssVariablesOutput chroma css colors ≠ Ok text).
Proof.
  split.
  - intros text E. destruct (in_range_or_not colors) as [H|H]; [exact H|].
    rewrite (CssVariablesOutput_Err colors H) in E. discriminate.
  - intros H text E.
    rewrite (CssVariablesOutput_Err colors H) in E. discriminate.
Qed.

(** X14: the swatches are returned only when every entry has a target
    index between -1 and 9, and are then one swatch of 10 blocks for each
    entry; one entry outside is enough to lose them all. *)
Theorem Swatches_outcomes (colors : list Color) :
  (∀ swatches : list (list shade),
     Swatches chroma css luminance hsl toFixed colors = Ok swatches ->
     Forall (fun c => (-1 <= targetIndex c <= 9)%Z) colors ∧
     length swatches = length colors ∧
     Forall (fun blocks => length blocks = 10%nat) swatches) ∧
  (Exists (fun c => ¬ (-1 <= targetIndex c <= 9)%Z) colors ->
   ∀ swatches : list (list shade),
     Swatches chroma css luminance hsl toFixed colors ≠ Ok swatches).
Proof.
  split.
  - intros swatches E. destruct (in_range_or_not colors) as [H|H].
    + destruct (Swatches_in_range colors H) as (sw & E' & L & F).
      rewrite E in E'. injection E' as ->. by repeat split.
    + rewrite (Swatches_Err colors H) in E. discriminate.
  - intros H swatches E. rewrite (Swatches_Err colors H) in E. discriminate.
Qed.

End Rendering.

Lemma Swatches_outcomes_witness :
  ∃ swatches : list (list shade),
    Swatches sample_chroma sample_css sample_luminance sample_hsl sample_toFixed
      DEFAULT_COLORS = Ok swatches ∧
    length swatches = 6%nat ∧
    Forall (fun blocks => length blocks = 10%nat) swatches.
Proof.
  destruct (Swatches_in_range sample_chroma sample_css sample_luminance sample_hsl
              sample_toFixed DEFAULT_COLORS) as (swatches & E & _).
  { repeat constructor; simpl; lia. }
  exists swatches. split; [exact E|].
  apply (Swatches_outcomes sample_chroma sample_css sample_luminance sample_hsl
           sample_toFixed DEFAULT_COLORS). exact E.
Defined.

(** ** The custom properties of the export *)

Lemma pretty_digit (i : nat) : (i < 10)%nat -> String.length (pretty i) = 1%nat.
Proof.
  intros Hi.
  do 10 (destruct i as [|i]; [reflexivity|]). lia.
Qed.

(** X15: a declaration line is two spaces, the custom property, a colon
    and the colour; two custom properties of the export are the same text
    only for entries of the same name and the same shade index, so that
    entries with different names never declare the same property. *)
Theorem custom_property_inj (css : Lab -> string) (c c' : Color) (i i' : nat)
    (shade : Lab) :
  (i < 10)%nat -> (i' < 10)%nat ->
  declaration css c i shade
  = "  " +:+ custom_property c i +:+ ": " +:+ css shade +:+ ";" ∧
  (custom_property c i = custom_property c' i' -> name c = name c' ∧ i = i').
Proof.
  intros Hi Hi'. split.
  - unfold declaration, custom_property. by rewrite !string_app_assoc.
  - unfold custom_property. intros E.
    apply (inj (String.app "--")) in E.
    apply string_app_inj_suffix in E as [En Ei].
    + split; [exact En|].
      apply (inj (String.app "-")) in Ei. by apply (inj pretty) in Ei.
    + rewrite !string_length_app, !pretty_digit by assumption. reflexivity.
Qed.

Lemma custom_property_inj_witness :
  declaration sample_css red 3 (mkLab 0 0 0)
  = "  " +:+ custom_property red 3 +:+ ": " +:+ sample_css (mkLab 0 0 0) +:+ ";".
Proof.
  apply (custom_property_inj sample_css red red 3 3 (mkLab 0 0 0)); lia.
Defined.

(** ** The pickers on a palette of seed colours *)

Lemma onChange_update (st : state) (e : edit) :
  onChange st e
  = updateAttrForIndex st (Z.of_nat (edit_index e)) (edit_field e) (edit_value e).
Proof. by destruct e. Qed.

(** The object of an edited seed colour is the object of the seed colour
    with the field of the event set. *)
Lemma Color_object_edited (c : Color) (e : edit) :
  <[key (edit_field e) := edit_value e]> (Color_object c)
  = Color_object (edited c e).
Proof.
  apply map_eq. intros k. unfold Color_object.
  destruct e; simpl; rewrite !lookup_insert;
    repeat case_decide; simplify_eq; reflexivity.
Qed.

Lemma Array_of_insert (colors : list Color) (i : nat) (c : Color) :
  mkArray (<[i := Object (Color_object c)]> (elems (Array_of colors))) ∅
  = Array_of (<[i := c]> colors).
Proof. unfold Array_of. simpl. by rewrite list_fmap_insert. Qed.

(** One event on a palette of seed colours, in closed form. *)
Lemma onChange_palette (st : state) (colors : list Color) (e : edit) (c : Color) :
  palette_is st colors ->
  (Z.of_nat (length colors) <= 2 ^ 32 - 1)%Z ->
  colors !! edit_index e = Some c ->
  onChange st e
  = Ok (mkState
          (<[fresh (dom (store st)) :=
               Array_of (<[edit_index e := edited c e]> colors)]> (store st))
          (fresh (dom (store st)))).
Proof.
  intros Hst Hmax Hc. rewrite onChange_update.
  rewrite (updateAttrForIndex_inside st _ _ _ (Array_of colors) (Color_object c)).
  - rewrite Nat2Z.id, Color_object_edited, Array_of_insert. reflexivity.
  - exact Hst.
  - apply Array_of_objects.
  - apply lookup_lt_Some in Hc. unfold is_array_index. lia.
  - rewrite Nat2Z.id. simpl. by rewrite list_lookup_fmap, Hc.
Qed.

(** X16: each of the five handlers of a picker acts on the palette as the
    replacement of one field of one seed colour: after the event the state
    holds the palette with entry [i] edited and all other entries as they
    were, in a new array, the old array being still in the store. *)
Theorem onChange_refines (st : state) (colors : list Color) (e : edit) (c : Color) :
  palette_is st colors ->
  (Z.of_nat (length colors) <= 2 ^ 32 - 1)%Z ->
  colors !! edit_index e = Some c ->
  ∃ st' : state,
    onChange st e = Ok st' ∧
    palette_is st' (<[edit_index e := edited c e]> colors) ∧
    palette st' ≠ palette st ∧
    store st' !! palette st = Some (Array_of colors).
Proof.
  intros Hst Hmax Hc. eexists. split; [by apply onChange_palette|].
  pose proof (fresh_not_live _ _ _ Hst) as Hfresh.
  unfold palette_is. simpl.
  split; [apply lookup_insert_eq|]. split; [exact Hfresh|].
  by rewrite lookup_insert_ne.
Qed.

Lemma App_init_palette_is : palette_is App_init DEFAULT_COLORS.
Proof. apply App_init_palette. Qed.

Lemma onChange_refines_witness :
  ∃ st' : state,
    onChange App_init (EditHex 2 "#ff0000") = Ok st' ∧
    palette_is st' (<[2%nat := hue "red" "#ff0000"]> DEFAULT_COLORS).
Proof.
  destruct (onChange_refines App_init DEFAULT_COLORS (EditHex 2 "#ff0000") red)
    as (st' & E & H & _).
  - apply App_init_palette_is.
  - simpl. lia.
  - reflexivity.
  - exists st'. split; assumption.
Defined.

(** ** Sequences of events *)

Lemma palette_is_inj (st : state) (colors : list Color) (a : jsarray) :
  palette_is st colors -> store st !! palette st = Some a -> a = Array_of colors.
Proof. unfold palette_is. intros H1 H2. congruence. Qed.

(** A property of palettes that every single edit keeps is kept by every
    sequence of events, together with the number of entries. *)
Lemma edits_invariant (P : list Color -> Prop) :
  (∀ (colors : list Color) (e : edit) (c : Color),
     P colors -> colors !! edit_index e = Some c ->
     P (<[edit_index e := edited c e]> colors)) ->
  ∀ st st' : state, rtc step st st' ->
  ∀ colors : list Color,
    palette_is st colors ->
    (Z.of_nat (length colors) <= 2 ^ 32 - 1)%Z ->
    P colors ->
    ∃ colors' : list Color,
      palette_is st' colors' ∧ length colors' = length colors ∧ P colors'.
Proof.
  intros Hkeep st st' Hrtc.
  induction Hrtc as [st|st st1 st' Hstep _ IH]; intros colors Hst Hmax HP.
  - by exists colors.
  - destruct Hstep as (e & a & Ha & Hlt & E).
    rewrite (palette_is_inj st colors a Hst Ha), length_Array_of in Hlt.
    destruct (lookup_lt_is_Some_2 colors (edit_index e) Hlt) as [c Hc].
    rewrite (onChange_palette st colors e c Hst Hmax Hc) in E.
    injection E as <-.
    destruct (IH (<[edit_index e := edited c e]> colors)) as (colors' & H1 & H2 & H3).
    + unfold palette_is. simpl. apply lookup_insert_eq.
    + by rewrite length_insert.
    + by apply Hkeep.
    + exists colors'. rewrite length_insert in H2. by repeat split.
Qed.

Lemma targetIndex_edited (c : Color) (e : edit) : targetIndex (edited c e) = targetIndex c.
Proof. by destruct e. Qed.

(** X17: no sequence of events on the pickers changes the number of
    entries of the palette or the target index of an entry: there is no
    input for either. *)
Theorem edits_keep_targetIndex (st st' : state) (colors : list Color) :
  rtc step st st' ->
  palette_is st colors ->
  (Z.of_nat (length colors) <= 2 ^ 32 - 1)%Z ->
  ∃ colors' : list Color,
    palette_is st' colors' ∧
    length colors' = length colors ∧
    targetIndex <$> colors' = targetIndex <$> colors.
Proof.
  intros Hrtc Hst Hmax.
  apply (edits_invariant (fun cs => targetIndex <$> cs = targetIndex <$> colors))
    with (st := st); try done.
  intros cs e c Hcs Hc. rewrite list_fmap_insert, targetIndex_edited, <- Hcs.
  apply list_insert_id. by rewrite list_lookup_fmap, Hc.
Qed.

(** X18: no sequence of events on the pickers sets a mix ratio to 0: on a
    palette without a zero ratio there is none afterwards. *)
Theorem edits_keep_ratios_nonzero (st st' : state) (colors : list Color) :
  rtc step st st' ->
  palette_is st colors ->
  (Z.of_nat (length colors) <= 2 ^ 32 - 1)%Z ->
  Forall (fun c => whiteMixRatio c ≠ 0 ∧ blackMixRatio c ≠ 0) colors ->
  ∃ colors' : list Color,
    palette_is st' colors' ∧
    Forall (fun c => whiteMixRatio c ≠ 0 ∧ blackMixRatio c ≠ 0) colors'.
Proof.
  intros Hrtc Hst Hmax Hnz.
  destruct (edits_invariant
              (Forall (fun c => whiteMixRatio c ≠ 0 ∧ blackMixRatio c ≠ 0)))
    with (st := st) (st' := st') (colors := colors) as (colors' & H1 & _ & H2);
    try done; [|by exists colors'].
  intros cs e c Hcs Hc. apply Forall_insert; [exact Hcs|].
  rewrite Forall_lookup in Hcs. destruct (Hcs _ _ Hc) as [Hw Hb].
  destruct e; simpl; split; try assumption;
    apply or_default_nonzero, default_ratio_nonzero.
Qed.

Section AppRenders.

Variable chroma : string -> Lab.
Variable css : Lab -> string.
Variable luminance : Lab -> R.
Variable hsl : Lab -> jsnumber * jsnumber * jsnumber.
Variable toFixed : jsnumber -> nat -> string.


End AppRenders.

Lemma onChange_total (st : state) (e : edit) : ∃ st' : state, onChange st e = Ok st'.
Proof. rewrite onChange_update. apply updateAttrForIndex_total. Qed.

Lemma step_App_init (e : edit) (st' : state) :
  (edit_index e < 6)%nat -> onChange App_init e = Ok st' -> rtc step App_init st'.
Proof.
  intros Hi E. apply rtc_once. exists e, (Array_of DEFAULT_COLORS).
  split; [apply App_init_palette|]. split; [|exact E].
  rewrite length_Array_of. exact Hi.
Qed.

Lemma edits_keep_targetIndex_witness :
  ∃ (st' : state) (colors' : list Color),
    onChange App_init (EditWhiteMixRatio 0 "0.5") = Ok st' ∧
    palette_is st' colors' ∧
    targetIndex <$> colors' = [7; 5; 5; 5; 5; 5]%Z.
Proof.
  destruct (onChange_total App_init (EditWhiteMixRatio 0 "0.5")) as [st' E].
  destruct (edits_keep_targetIndex App_init st' DEFAULT_COLORS)
    as (colors' & H & _ & Ht).
  - eapply step_App_init; [|exact E]. simpl. lia.
  - apply App_init_palette_is.
  - simpl. lia.
  - exists st', colors'. repeat split; assumption.
Defined.

Lemma edits_keep_ratios_nonzero_witness :
  ∃ (st' : state) (colors' : list Color),
    onChange App_init (EditBlackMixRatio 3 "0") = Ok st' ∧
    palette_is st' colors' ∧
    Forall (fun c => whiteMixRatio c ≠ 0 ∧ blackMixRatio c ≠ 0) colors'.
Proof.
  destruct (onChange_total App_init (EditBlackMixRatio 3 "0")) as [st' E].
  destruct (edits_keep_ratios_nonzero App_init st' DEFAULT_COLORS)
    as (colors' & H & Hnz).
  - eapply step_App_init; [|exact E]. simpl. lia.
  - apply App_init_palette_is.
  - simpl. lia.
  - repeat constructor; simpl; intros ?; lra.
  - exists st', colors'. repeat split; assumption.
Defined.


(** ** How two events compose *)

Lemma two_edits (st : state) (colors : list Color) (e1 e2 : edit) (c1 c2 : Color) :
  palette_is st colors ->
  (Z.of_nat (length colors) <= 2 ^ 32 - 1)%Z ->
  colors !! edit_index e1 = Some c1 ->
  <[edit_index e1 := edited c1 e1]> colors !! edit_index e2 = Some c2 ->
  ∃ st1 st2 : state,
    onChange st e1 = Ok st1 ∧
    onChange st1 e2 = Ok st2 ∧
    palette_is st2
      (<[edit_index e2 := edited c2 e2]> (<[edit_index e1 := edited c1 e1]> colors)).
Proof.
  intros Hst Hmax H1 H2.
  eexists _, _. split; [by apply onChange_palette|].
  split.
  - apply onChange_palette with (c := c2).
    + unfold palette_is. simpl. apply lookup_insert_eq.
    + by rewrite length_insert.
    + exact H2.
  - unfold palette_is. simpl. apply lookup_insert_eq.
Qed.

Lemma edited_commute (c : Color) (e1 e2 : edit) :
  edit_field e1 ≠ edit_field e2 ->
  edited (edited c e1) e2 = edited (edited c e2) e1.
Proof. destruct e1, e2; simpl; intros H; first [reflexivity | by destruct H]. Qed.

Lemma edited_overwrite (c : Color) (e1 e2 : edit) :
  edit_field e1 = edit_field e2 -> edited (edited c e1) e2 = edited c e2.
Proof. destruct e1, e2; simpl; intros H; first [reflexivity | discriminate H]. Qed.

(** X20: two events that edit different entries, or different fields of
    one entry, and store no number beyond the range of a double, commute: in
    either order they lead to the same palette. *)
Theorem edits_commute (st : state) (colors : list Color) (e1 e2 : edit)
    (c1 c2 : Color) :
  edit_finite e1 -> edit_finite e2 ->
  palette_is st colors ->
  (Z.of_nat (length colors) <= 2 ^ 32 - 1)%Z ->
  colors !! edit_index e1 = Some c1 ->
  colors !! edit_index e2 = Some c2 ->
  edit_index e1 ≠ edit_index e2 ∨ edit_field e1 ≠ edit_field e2 ->
  ∃ (st1 st12 st2 st21 : state) (final : list Color),
    onChange st e1 = Ok st1 ∧ onChange st1 e2 = Ok st12 ∧
    onChange st e2 = Ok st2 ∧ onChange st2 e1 = Ok st21 ∧
    palette_is st12 final ∧ palette_is st21 final.
Proof.
  intros _ _ Hst Hmax H1 H2 Hne.
  destruct (decide (edit_index e1 = edit_index e2)) as [Hi|Hi].
  - destruct Hne as [Hne|Hf]; [contradiction|].
    rewrite <- Hi in H2. assert (c2 = c1) as -> by congruence.
    destruct (two_edits st colors e1 e2 c1 (edited c1 e1) Hst Hmax H1)
      as (st1 & st12 & E1 & E12 & P12).
    { rewrite <- Hi. apply list_lookup_insert_eq. by eapply lookup_lt_Some. }
    destruct (two_edits st colors e2 e1 c1 (edited c1 e2) Hst Hmax)
      as (st2 & st21 & E2 & E21 & P21).
    { by rewrite <- Hi. }
    { rewrite Hi. apply list_lookup_insert_eq. rewrite <- Hi. by eapply lookup_lt_Some. }
    rewrite <- Hi in P12. rewrite <- Hi in P21 at 1.
    rewrite list_insert_insert_eq in P12, P21.
    rewrite (edited_commute c1 e1 e2 Hf) in P12.
    exists st1, st12, st2, st21,
      (<[edit_index e1 := edited (edited c1 e2) e1]> colors).
    by repeat split.
  - destruct (two_edits st colors e1 e2 c1 c2 Hst Hmax H1)
      as (st1 & st12 & E1 & E12 & P12).
    { by rewrite list_lookup_insert_ne. }
    destruct (two_edits st colors e2 e1 c2 c1 Hst Hmax H2)
      as (st2 & st21 & E2 & E21 & P21).
    { by rewrite list_lookup_insert_ne. }
    rewrite list_insert_insert_ne in P21 by done.
    exists st1, st12, st2, st21,
      (<[edit_index e2 := edited c2 e2]> (<[edit_index e1 := edited c1 e1]> colors)).
    by repeat split.
Qed.

(** X21: of two events on the same field of the same entry the second
    wins: the palette is the one the second event alone leads to. *)
Theorem edits_overwrite (st : state) (colors : list Color) (e1 e2 : edit) (c : Color) :
  palette_is st colors ->
  (Z.of_nat (length colors) <= 2 ^ 32 - 1)%Z ->
  colors !! edit_index e1 = Some c ->
  edit_index e1 = edit_index e2 -> edit_field e1 = edit_field e2 ->
  ∃ st1 st12 st2 : state,
    onChange st e1 = Ok st1 ∧ onChange st1 e2 = Ok st12 ∧
    onChange st e2 = Ok st2 ∧
    palette_is st12 (<[edit_index e2 := edited c e2]> colors) ∧
    palette_is st2 (<[edit_index e2 := edited c e2]> colors).
Proof.
  intros Hst Hmax Hc Hi Hf.
  destruct (two_edits st colors e1 e2 c (edited c e1) Hst Hmax Hc)
    as (st1 & st12 & E1 & E12 & P12).
  { rewrite <- Hi. apply list_lookup_insert_eq. by eapply lookup_lt_Some. }
  assert (colors !! edit_index e2 = Some c) as Hc2 by (by rewrite <- Hi).
  pose proof (onChange_palette st colors e2 c Hst Hmax Hc2) as E2.
  eexists st1, st12, _. repeat (split; [eassumption|]).
  split; [|unfold palette_is; simpl; apply lookup_insert_eq].
  rewrite <- Hi in P12. rewrite list_insert_insert_eq in P12.
  rewrite (edited_overwrite c e1 e2 Hf) in P12. by rewrite <- Hi.
Qed.

Lemma edits_commute_witness :
  ∃ (st1 st12 st2 st21 : state) (final : list Color),
    onChange App_init (EditName 0 "charcoal") = Ok st1 ∧
    onChange st1 (EditHex 2 "#ff0000") = Ok st12 ∧
    onChange App_init (EditHex 2 "#ff0000") = Ok st2 ∧
    onChange st2 (EditName 0 "charcoal") = Ok st21 ∧
    palette_is st12 final ∧ palette_is st21 final.
Proof.
  apply (edits_commute App_init DEFAULT_COLORS
           (EditName 0 "charcoal") (EditHex 2 "#ff0000")
           (mkColor "gray" "#302c2c" 7 easeOut 0.9 0.85) red).
  - exact I.
  - exact I.
  - apply App_init_palette_is.
  - simpl. lia.
  - reflexivity.
  - reflexivity.
  - left. discriminate.
Defined.

Lemma edits_overwrite_witness :
  ∃ st1 st12 st2 : state,
    onChange App_init (EditWhiteMixRatio 1 "0.5") = Ok st1 ∧
    onChange st1 (EditWhiteMixRatio 1 "0.75") = Ok st12 ∧
    onChange App_init (EditWhiteMixRatio 1 "0.75") = Ok st2 ∧
    palette_is st12
      (<[1%nat := edited (hue "yellow" "#ffdc40") (EditWhiteMixRatio 1 "0.75")]>
         DEFAULT_COLORS) ∧
    palette_is st2
      (<[1%nat := edited (hue "yellow" "#ffdc40") (EditWhiteMixRatio 1 "0.75")]>
         DEFAULT_COLORS).
Proof.
  apply (edits_overwrite App_init DEFAULT_COLORS
           (EditWhiteMixRatio 1 "0.5") (EditWhiteMixRatio 1 "0.75")
           (hue "yellow" "#ffdc40")).
  - apply App_init_palette_is.
  - simpl. lia.
  - reflexivity.
  - reflexivity.
  - reflexivity.
Defined.

(** ** What the ratio inputs let through *)

Lemma Number_minus_3 : Number "-3" = Num (-3).
Proof.
  change (Number "-3") with (Num (decimal true 3 (- 0))).
  f_equal. unfold decimal. simpl. lra.
Qed.

(** X22: the two ratio inputs store the number the text denotes, when it
    is of a size a double holds (between 1e-300 and 1e300 in absolute
    value), with no check that it lies between 0 and 1. *)
Theorem ratio_input_unvalidated (st : state) (colors : list Color) (i : nat)
    (c : Color) (text : string) (r : R) :
  palette_is st colors ->
  (Z.of_nat (length colors) <= 2 ^ 32 - 1)%Z ->
  colors !! i = Some c ->
  Number text = Num r ->
  1e-300 <= Rabs r <= 1e300 ->
  (∃ st' : state,
     onChange st (EditWhiteMixRatio i text) = Ok st' ∧
     palette_is st' (<[i := with_whiteMixRatio c r]> colors)) ∧
  (∃ st' : state,
     onChange st (EditBlackMixRatio i text) = Ok st' ∧
     palette_is st' (<[i := with_blackMixRatio c r]> colors)).
Proof.
  intros Hst Hmax Hc Hn Hsize.
  assert (r ≠ 0) as Hr.
  { intros ->. rewrite Rabs_R0 in Hsize. lra. }
  assert (or_default (Number text) 0.9 = r) as Hd.
  { rewrite Hn. by apply or_default_truthy. }
  split; eexists.
  - split; [apply (onChange_palette st colors (EditWhiteMixRatio i text) c);
            assumption|].
    unfold palette_is. simpl. rewrite Hd. apply lookup_insert_eq.
  - split; [apply (onChange_palette st colors (EditBlackMixRatio i text) c);
            assumption|].
    unfold palette_is. simpl. rewrite Hd. apply lookup_insert_eq.
Qed.

Lemma ratio_input_unvalidated_witness :
  ∃ st' : state,
    onChange App_init (EditWhiteMixRatio 2 "-3") = Ok st' ∧
    palette_is st' (<[2%nat := with_whiteMixRatio red (-3)]> DEFAULT_COLORS).
Proof.
  apply (ratio_input_unvalidated App_init DEFAULT_COLORS 2 red "-3" (-3)).
  - apply App_init_palette_is.
  - simpl. lia.
  - reflexivity.
  - apply Number_minus_3.
  - rewrite Rabs_left by lra. split; lra.
Defined.

(** ** The ids of the inputs *)

Lemma dash_free_app (s1 s2 : string) :
  dash_free s1 -> dash_free s2 -> dash_free (s1 +:+ s2).
Proof.
  intros H1 H2. induction s1 as [|a s1 IH]; [exact H2|].
  rewrite string_app_cons. destruct H1 as [Ha H1]. split; [exact Ha|by apply IH].
Qed.

Lemma pretty_N_char_no_dash (x : N) : pretty_N_char x ≠ "-"%char.
Proof. unfold pretty_N_char. by repeat case_match. Qed.

Lemma pretty_N_go_dash_free (x : N) (s : string) :
  ∃ d : string, pretty_N_go x s = d +:+ s ∧ dash_free d.
Proof.
  revert s. induction (N.lt_wf_0 x) as [x _ IH]; intros s.
  destruct (decide (x = 0%N)) as [->|Hx].
  - exists "". by rewrite pretty_N_go_0.
  - rewrite pretty_N_go_step by lia.
    destruct (IH (x `div` 10)%N) with (s := String (pretty_N_char (x `mod` 10)) s)
      as (d & E & Hd); [apply N.div_lt; lia|].
    exists (d +:+ String (pretty_N_char (x `mod` 10)) "").
    rewrite E, string_app_assoc. split; [reflexivity|].
    apply dash_free_app; [exact Hd|]. split; [apply pretty_N_char_no_dash|exact I].
Qed.

Lemma pretty_nat_dash_free (i : nat) : dash_free (pretty i).
Proof.
  unfold pretty, pretty_nat, pretty, pretty_N.
  case_decide; [by split|].
  destruct (pretty_N_go_dash_free (N.of_nat i) "") as (d & -> & Hd).
  by apply dash_free_app.
Qed.

(** Two texts split at their first ["-"] are equal part by part. *)
Lemma dash_split (d1 d2 r1 r2 : string) :
  dash_free d1 -> dash_free d2 ->
  d1 +:+ String "-" r1 = d2 +:+ String "-" r2 -> d1 = d2 ∧ r1 = r2.
Proof.
  revert d2. induction d1 as [|a d1 IH]; intros [|b d2] H1 H2 E;
    rewrite ?string_app_cons, ?string_app_nil_l in E.
  - injection E as ->. by split.
  - injection E as <- _. by destruct H2 as [H2 _].
  - injection E as -> _. by destruct H1 as [H1 _].
  - injection E as -> E. destruct H1 as [_ H1], H2 as [_ H2].
    destruct (IH d2 H1 H2 E) as [-> ->]. by split.
Qed.

Lemma input_ids_elem (id x : string) :
  x ∈ input_ids id -> ∃ suffix : string, x = id +:+ suffix.
Proof.
  unfold input_ids. intros Hx.
  repeat (apply elem_of_cons in Hx as [->|Hx]; [by eexists|]).
  by apply elem_of_nil in Hx.
Qed.

Lemma picker_id_split (i : nat) (c : Color) (suffix : string) :
  picker_id i c +:+ suffix = pretty i +:+ String "-" (name c +:+ suffix).
Proof. unfold picker_id. by rewrite !string_app_assoc. Qed.

(** X23: the key of a picker tells its index and the name of its entry;
    the five input ids of a picker are different from each other, and an
    input id of one picker is never an input id of the picker of another
    index, whatever the names of the entries. *)
Theorem picker_ids_unique (i i' : nat) (c c' : Color) :
  (picker_id i c = picker_id i' c' -> i = i' ∧ name c = name c') ∧
  NoDup (input_ids (picker_id i c)) ∧
  (∀ x : string,
     x ∈ input_ids (picker_id i c) -> x ∈ input_ids (picker_id i' c') -> i = i').
Proof.
  split; [|split].
  - unfold picker_id. intros E.
    change ("-" +:+ name c) with (String "-" (name c)) in E.
    change ("-" +:+ name c') with (String "-" (name c')) in E.
    apply dash_split in E as [Ei En]; try apply pretty_nat_dash_free.
    split; [by apply (inj pretty) in Ei|exact En].
  - unfold input_ids, nameInputId, hexInputId, shadingFunctionSelectId,
      whiteMixRatioInputId, blackMixRatioInputId.
    repeat (apply NoDup_cons; split;
            [rewrite ?elem_of_cons, elem_of_nil;
             intros H; repeat destruct H as [H|H]; try done;
             apply (inj (String.app _)) in H; discriminate H|]).
    apply NoDup_nil_2.
  - intros x Hx Hx'.
    apply input_ids_elem in Hx as [s ->]. apply input_ids_elem in Hx' as [s' E].
    rewrite !picker_id_split in E.
    apply dash_split in E as [Ei _]; try apply pretty_nat_dash_free.
    by apply (inj pretty) in Ei.
Qed.

Lemma picker_ids_unique_witness :
  NoDup (input_ids (picker_id 0 red)).
Proof. apply (picker_ids_unique 0 1 red red). Defined.

(** ** Updates on a palette with empty slots *)

Lemma JSON_elem_not_Hole (e : elem) : JSON_elem e ≠ Hole.
Proof. by destruct e. Qed.

(** X24: an update inside a palette that has empty slots or [null]
    entries leaves no empty slot and no stray property behind: the copy
    turns every empty slot into [null], and when the entry at the index is
    itself an empty slot or [null] it becomes an object with the named field
    alone. *)
Theorem updateAttrForIndex_empty_slot (st : state) (index : Z) (attr : ColorKey)
    (v : value) (a : jsarray) :
  store st !! palette st = Some a ->
  (Z.of_nat (length (elems a)) <= 2 ^ 32 - 1)%Z ->
  (0 <= index < Z.of_nat (length (elems a)))%Z ->
  ∃ (st' : state) (a' : jsarray),
    updateAttrForIndex st index attr v = Ok st' ∧
    store st' !! palette st' = Some a' ∧
    props a' = ∅ ∧
    length (elems a') = length (elems a) ∧
    Forall (fun e => e ≠ Hole) (elems a') ∧
    (elems a !! Z.to_nat index = Some Hole ∨ elems a !! Z.to_nat index = Some Null ->
     elems a' !! Z.to_nat index = Some (Object {[ key attr := v ]})) ∧
    (∀ j : nat, j ≠ Z.to_nat index ->
       elems a' !! j = JSON_elem <$> elems a !! j).
Proof.
  intros Ha Hmax Hidx.
  assert (is_array_index index) as Hai by (unfold is_array_index; lia).
  rewrite (updateAttrForIndex_eq st index attr v a Ha).
  eexists _, _. split; [reflexivity|]. simpl.
  split; [apply lookup_insert_eq|].
  unfold array_set. rewrite decide_True by exact Hai.
  rewrite decide_True by (simpl; rewrite length_fmap; lia). simpl.
  split; [reflexivity|].
  split; [by rewrite length_insert, length_fmap|].
  split.
  - apply Forall_insert; [|discriminate].
    apply Forall_fmap, Forall_true. intros e. apply JSON_elem_not_Hole.
  - split.
    + intros He. rewrite list_lookup_insert_eq by (rewrite length_fmap; lia).
      do 2 f_equal. unfold array_get. rewrite decide_True by exact Hai.
      simpl. rewrite list_lookup_fmap.
      destruct He as [-> | ->]; simpl; by rewrite insert_empty.
    + intros j Hj. rewrite list_lookup_insert_ne by done.
      apply list_lookup_fmap.
Qed.

Lemma updateAttrForIndex_empty_slot_witness :
  ∃ (st' : state) (a' : jsarray),
    updateAttrForIndex sparse_state 0 Kname (VStr "charcoal") = Ok st' ∧
    store st' !! palette st' = Some a' ∧
    elems a' = [Object {[ "name" := VStr "charcoal" ]}; Null].
Proof.
  destruct (updateAttrForIndex_empty_slot sparse_state 0 Kname (VStr "charcoal")
              (mkArray [Hole; Null] ∅))
    as (st' & a' & E & Ea & _ & Hlen & _ & H0 & Hrest).
  - apply lookup_singleton_eq.
  - simpl. lia.
  - simpl. lia.
  - exists st', a'. split; [exact E|]. split; [exact Ea|].
    apply list_eq. intros [|[|j]].
    + apply H0. by left.
    + apply (Hrest 1%nat). discriminate.
    + rewrite (Hrest (S (S j))) by discriminate. reflexivity.
Defined.
